(** * Endpoint health checker: a shallow embedding of [app.py]

    The development follows the module top to bottom: the settings read
    from the process environment, the single probe [check_endpoint], and
    the route handler [check_endpoints] that fans the probes out over a
    thread pool and gathers their results.

    Conventions.
    - A Python [str] is a [string]; each character stands for one code
      point (below 256).
    - A call that may raise lives in the [py] monad: [Return v] or
      [Raise e].
    - What the outside world does (the environment variables, the URL
      file, the HTTP exchange, the clock, the order in which the futures
      are handed back) is an explicit argument of the function that
      observes it.
    - A Python [float] is carried as the rational number it is; an
      operation on floats rounds its exact result to the nearest binary64
      value. *)

From Stdlib Require Import Ascii QArith Qround Qabs Qpower Lqa.
From stdpp Require Import base option list strings gmap.

Local Open Scope Z_scope.

(** ** Exceptions and the [py] monad *)

(** The two [except] clauses of [check_endpoint] only look at where the
    class of the exception sits with respect to
    [requests.exceptions.Timeout] and [requests.exceptions.RequestException]
    ([Timeout] derives from [RequestException]). *)
Inductive exc_family : Set :=
  | TimeoutFamily      (* Timeout or one of its subclasses *)
  | RequestFamily      (* another subclass of RequestException *)
  | ForeignFamily.     (* any class outside that hierarchy *)

Record py_exception : Set := PyExc {
  exc_class_name : string;      (* e.__class__.__name__ *)
  exc_family_of : exc_family
}.

Definition isinstance_Timeout (e : py_exception) : bool :=
  match exc_family_of e with TimeoutFamily => true | _ => false end.

Definition isinstance_RequestException (e : py_exception) : bool :=
  match exc_family_of e with
  | TimeoutFamily | RequestFamily => true
  | ForeignFamily => false
  end.

Definition ValueError : py_exception := PyExc "ValueError" ForeignFamily.

Inductive py (A : Type) : Type :=
  | Return (a : A)
  | Raise (e : py_exception).
Arguments Return {A} a.
Arguments Raise {A} e.

#[global] Instance py_ret : MRet py := @Return.
#[global] Instance py_bind : MBind py := λ A B f m,
  match m with
  | Return a => f a
  | Raise e => Raise e
  end.

Definition returns {A} (m : py A) : bool :=
  match m with Return _ => true | Raise _ => false end.

(** ** Settings (lines 14-16) *)

Module Settings.

(** [os.getenv(key, default)] hands back the variable's text when it is
    set and the default object otherwise; the defaults in this module are
    integers or text. *)
Inductive pyval : Set :=
  | PyStr (s : string)
  | PyInt (z : Z).

Definition getenv (environ : gmap string string) (key : string)
    (default : pyval) : pyval :=
  match environ !! key with
  | Some s => PyStr s
  | None => default
  end.

(** The same call with a text default: the outcome is text either way. *)
Definition getenv_str (environ : gmap string string) (key : string)
    (default : string) : string :=
  match environ !! key with
  | Some s => s
  | None => default
  end.

Definition code (c : ascii) : N := Ascii.N_of_ascii c.

Definition is_digit (c : ascii) : bool :=
  (48 <=? code c)%N && (code c <=? 57)%N.

Definition digit_value (c : ascii) : Z := Z.of_N (code c) - 48.

(** White space skipped by [int] around the literal: tab, line feed,
    vertical tab, form feed, carriage return, space, and above 127 the
    Unicode spaces (next line, no-break space). *)
Definition is_int_space (c : ascii) : bool :=
  ((9 <=? code c)%N && (code c <=? 13)%N)
  || (code c =? 32)%N || (code c =? 133)%N || (code c =? 160)%N.

Definition is_underscore (c : ascii) : bool := (code c =? 95)%N.

Fixpoint skip_space (s : string) : string :=
  match s with
  | String c r => if is_int_space c then skip_space r else s
  | EmptyString => s
  end.

Definition take_sign (s : string) : Z * string :=
  match s with
  | String c r =>
      if (code c =? 43)%N then (1, r)
      else if (code c =? 45)%N then (-1, r)
      else (1, s)
  | EmptyString => (1, s)
  end.

(** The digit run: digits, with single underscores allowed between two
    digits. Yields the value read, the number of digits and the text that
    follows; [None] on a doubled or trailing underscore. *)
Fixpoint scan_digits (after_underscore : bool) (acc : Z) (ndigits : nat)
    (s : string) : option (Z * nat * string) :=
  match s with
  | String c r =>
      if is_digit c then
        scan_digits false (10 * acc + digit_value c) (S ndigits) r
      else if is_underscore c then
        if after_underscore then None
        else scan_digits true acc ndigits r
      else if after_underscore then None
      else Some (acc, ndigits, s)
  | EmptyString =>
      if after_underscore then None else Some (acc, ndigits, s)
  end.

Definition starts_with_underscore (s : string) : bool :=
  match s with
  | String c _ => is_underscore c
  | EmptyString => false
  end.

(** Longest digit run [int] converts (sys.int_info.default_max_str_digits). *)
Definition max_str_digits : nat := 4300.

(** [int(s)] for text [s], base ten. *)
Definition int_of_str (s : string) : py Z :=
  let '(sign, body) := take_sign (skip_space s) in
  if starts_with_underscore body then Raise ValueError
  else
    match scan_digits false 0 0%nat body with
    | None => Raise ValueError
    | Some (v, n, rest) =>
        if (n =? 0)%nat then Raise ValueError
        else if (max_str_digits <? n)%nat then Raise ValueError
        else
          match skip_space rest with
          | EmptyString => Return (sign * v)
          | String _ _ => Raise ValueError
          end
    end.

Definition int (v : pyval) : py Z :=
  match v with
  | PyInt z => Return z
  | PyStr s => int_of_str s
  end.

Record settings : Set := {
  TIMEOUT : Z;
  URL_FILE : string;
  MAX_WORKERS : Z
}.

(** The three module-level assignments, in source order; [environ] is the
    process environment once [load_dotenv()] has run. *)
Definition load (environ : gmap string string) : py settings :=
  timeout ← int (getenv environ "TIMEOUT" (PyInt 30));
  let url_file := getenv_str environ "URL_FILE" "endpoints.txt" in
  max_workers ← int (getenv environ "MAX_WORKERS" (PyInt 10));
  mret {| TIMEOUT := timeout; URL_FILE := url_file;
          MAX_WORKERS := max_workers |}.

End Settings.

Export Settings (settings, TIMEOUT, URL_FILE, MAX_WORKERS).

(** ** The result record (lines 32-36)

    The dictionaries built by both functions carry the four keys of
    [EndpointResult]; [None] is the absent value of [status] and [time]. *)

Record EndpointResult : Set := {
  url : string;
  result : string;
  status : option Z;
  time : option Q
}.

(** ** One probe: [check_endpoint] (lines 39-58) *)

(** [round(x, 2)] on a float: the exact value of [x] goes to the nearest
    multiple of 1/100, a tie to the even one. The float that [round]
    returns is carried as that number of hundredths, which is what it
    prints as. *)
Definition round_half_even (x : Q) : Z :=
  let f := Qfloor x in
  match (x - inject_Z f ?= 1 # 2)%Q with
  | Lt => f
  | Gt => f + 1
  | Eq => if Z.even f then f else f + 1
  end.

Definition round2 (x : Q) : Q := round_half_even (x * 100) # 100.

(** *** Binary64 arithmetic *)

(** The exponent of the power of two at or just below a positive [x]. *)
Definition ilog2 (x : Q) : Z :=
  let k := (Z.log2 (Qnum x) - Z.log2 (Z.pos (Qden x)))%Z in
  if Qle_bool (2 ^ k) x then k else (k - 1)%Z.

(** Rounding of a positive number to the binary64 grid: 53 significant
    bits, the spacing never finer than 2^-1074 (the subnormal numbers), a
    tie going to the even significand. The largest finite binary64, about
    1.8e308, is far beyond any span of time met here; the grid is
    continued above it. *)
Definition binary64_positive (x : Q) : Q :=
  let e := Z.max (ilog2 x - 52) (-1074) in
  (inject_Z (round_half_even (x / 2 ^ e)) * 2 ^ e)%Q.

Definition binary64 (x : Q) : Q :=
  match (x ?= 0)%Q with
  | Eq => 0%Q
  | Gt => binary64_positive x
  | Lt => (- binary64_positive (- x))%Q
  end.

(** [a - b] on two floats. *)
Definition float_sub (a b : Q) : Q := binary64 (a - b).

(** What [requests.get] does for one call. *)
Inductive get_outcome : Set :=
  | Response (status_code : Z)
  | Fails (e : py_exception).

(** One HTTP exchange as the probe sees it: the two floats read from
    [time.time()] and what [requests.get] did in between. *)
Record exchange : Set := {
  clock_before : Q;
  outcome : get_outcome;
  clock_after : Q
}.

Definition requests_get (x : exchange) : py Z :=
  match outcome x with
  | Response status_code => Return status_code
  | Fails e => Raise e
  end.

(** The body of the [try] (lines 41-49). *)
Definition probe (u : string) (timeout : Z) (x : exchange) : py EndpointResult :=
  let start := clock_before x in
  status_code ← requests_get x;
  let elapsed := round2 (float_sub (clock_after x) start) in
  mret {| url := u;
          status := Some status_code;
          time := Some elapsed;
          result := if Qle_bool elapsed (inject_Z timeout)
                    then "UP" else "TIMEOUT" |}.

(** The [try] with its two [except] clauses, tried in order; an exception
    that matches neither leaves the function. *)
Definition check_endpoint (u : string) (timeout : Z) (x : exchange)
    : py EndpointResult :=
  match probe u timeout x with
  | Return r => Return r
  | Raise e =>
      if isinstance_Timeout e then
        Return {| url := u; status := None; time := None;
                  result := "TIMEOUT" |}
      else if isinstance_RequestException e then
        Return {| url := u; status := None; time := None;
                  result := "DOWN (" +:+ exc_class_name e +:+ ")" |}
      else Raise e
  end.

(** ** The route handler: [check_endpoints] (lines 61-79) *)

(** *** Reading the URL file (lines 66-71) *)

(** [str.isspace] on one character: the ASCII controls 9-13 and 28-31, the
    space, and in the Latin-1 range the next-line and no-break-space
    characters. *)
Definition is_space (c : ascii) : bool :=
  let n := Ascii.N_of_ascii c in
  ((9 <=? n)%N && (n <=? 13)%N) || ((28 <=? n)%N && (n <=? 32)%N)
  || (n =? 133)%N || (n =? 160)%N.

Fixpoint lstrip (s : string) : string :=
  match s with
  | String c r => if is_space c then lstrip r else s
  | EmptyString => s
  end.

Fixpoint rstrip (s : string) : string :=
  match s with
  | EmptyString => EmptyString
  | String c r =>
      match rstrip r with
      | EmptyString => if is_space c then EmptyString else String c EmptyString
      | r' => String c r'
      end
  end.

Definition strip (s : string) : string := rstrip (lstrip s).

(** [s.startswith("#")] *)
Definition is_comment (s : string) : bool :=
  match s with
  | String c _ => (Ascii.N_of_ascii c =? 35)%N
  | EmptyString => false
  end.

(** Truth value of a [str]: non-empty. *)
Definition truthy (s : string) : bool :=
  match s with
  | EmptyString => false
  | String _ _ => true
  end.

(** The list comprehension over the lines of the file. *)
Definition read_urls (lines : list string) : list string :=
  strip <$> filter (λ line, truthy (strip line) && negb (is_comment (strip line)) = true) lines.

(** What a path names: a file that opens and reads as text, given by the
    lines that iterating over it yields; a directory; or a file that
    [open] or the iteration refuses (no permission, bytes that do not
    decode, a failing device), given by the class of the exception. *)
Inductive node : Set :=
  | RegularFile (lines : list string)
  | Directory
  | Unreadable (class_name : string).

Definition IsADirectoryError : py_exception :=
  PyExc "IsADirectoryError" ForeignFamily.

(** [os.path.exists] *)
Definition path_exists (fs : gmap string node) (path : string) : bool :=
  bool_decide (is_Some (fs !! path)).

(** [open(path, "r")] followed by the iteration over the file; only called
    on a path that exists. *)
Definition open_lines (fs : gmap string node) (path : string)
    : py (list string) :=
  match fs !! path with
  | Some (RegularFile lines) => Return lines
  | Some Directory => Raise IsADirectoryError
  | Some (Unreadable class_name) => Raise (PyExc class_name ForeignFamily)
  | None => Raise (PyExc "FileNotFoundError" ForeignFamily)
  end.

(** *** The pool (lines 73-77) *)

(** [ThreadPoolExecutor(max_workers=n)] refuses a pool without workers. *)
Definition ThreadPoolExecutor (max_workers : Z) : py unit :=
  if max_workers <=? 0 then Raise ValueError else Return ().

(** [as_completed]: each future is handed back once. In which order is
    not settled by the program: the futures already done when the call is
    made come in the iteration order of a set, the others as they get
    done. [pick k] names which of the futures not yet handed back comes at
    step [k] (taken modulo their number), so that every order the call can
    produce is the order of some [pick]. [fuel] bounds the number of steps
    and is the number of futures at the call. *)
Fixpoint as_completed {A} (pick : nat → nat) (step fuel : nat)
    (pending : list A) : list A :=
  match fuel with
  | O => []
  | S fuel' =>
      let i := (pick step mod length pending)%nat in
      match pending !! i with
      | Some fut => fut :: as_completed pick (S step) fuel' (delete i pending)
      | None => []
      end
  end.

(** The loop [for future in ...: results.append(future.result())]:
    [future.result()] hands back what the call returned or re-raises what
    it raised; the first re-raised exception ends the loop. *)
Fixpoint collect {A} (results : list A) (futures : list (py A)) : py (list A) :=
  match futures with
  | [] => Return results
  | future :: rest =>
      r ← future;
      collect (results ++ [r]) rest
  end.

(** The world of one request to the route: the file system, the exchange
    that the [i]-th submitted call has with its URL, and the order in
    which [as_completed] hands the futures back. *)
Record world : Type := {
  fs : gmap string node;
  http : nat → string → exchange;
  pick : nat → nat
}.

(** What a run of the handler leaves behind: the URLs handed to
    [requests.get] (every submitted call runs: leaving the [with] block
    joins the pool), and the value returned or the exception raised. *)
Record run : Type := {
  requested : list string;
  response : py (list EndpointResult)
}.

Definition not_found : EndpointResult :=
  {| url := "N/A"; result := "ERROR: URL file not found";
     status := None; time := None |}.

(** The dictionary comprehension of line 75: one future per element of
    [urls], keyed by the future itself. *)
Definition submit_all (cfg : settings) (w : world) (urls : list string)
    : list (py EndpointResult) :=
  imap (λ i u, check_endpoint u (TIMEOUT cfg) (http w i u)) urls.

Definition check_endpoints (cfg : settings) (w : world) : run :=
  if negb (path_exists (fs w) (URL_FILE cfg)) then
    {| requested := []; response := Return [not_found] |}
  else
    match open_lines (fs w) (URL_FILE cfg) with
    | Raise e => {| requested := []; response := Raise e |}
    | Return lines =>
        let urls := read_urls lines in
        match ThreadPoolExecutor (MAX_WORKERS cfg) with
        | Raise e => {| requested := []; response := Raise e |}
        | Return _ =>
            let future_to_url := submit_all cfg w urls in
            {| requested := urls;
               response :=
                 collect [] (as_completed (pick w) 0
                               (length future_to_url) future_to_url) |}
        end
    end.

(** *** Vocabulary of the statements *)

(** The exchange ends inside what [check_endpoint] handles: a response, or
    an exception of the [RequestException] hierarchy. *)
Definition handled (x : exchange) : bool :=
  match outcome x with
  | Response _ => true
  | Fails e => isinstance_RequestException e
  end.

(** Where an [EndpointResult] can come from: a call of [check_endpoint]
    that returned it, or the list returned by [check_endpoints]. *)
Inductive produced (r : EndpointResult) : Prop :=
  | by_check_endpoint (u : string) (timeout : Z) (x : exchange) :
      check_endpoint u timeout x = Return r → produced r
  | by_check_endpoints (cfg : settings) (w : world) (rs : list EndpointResult) :
      response (check_endpoints cfg w) = Return rs → r ∈ rs → produced r.

Fixpoint any_char (p : ascii → bool) (s : string) : bool :=
  match s with
  | EmptyString => false
  | String c r => p c || any_char p r
  end.

(** Characters that an integer literal accepted by [int] may contain. *)
Definition literal_char (c : ascii) : bool :=
  Settings.is_digit c || Settings.is_int_space c || Settings.is_underscore c
  || (Settings.code c =? 43)%N || (Settings.code c =? 45)%N.

(** Text that does not spell a whole number: some character is foreign to
    integer literals (a decimal point, an exponent, a letter), or there is
    no digit at all. *)
Definition not_whole_number (s : string) : bool :=
  any_char (λ c, negb (literal_char c)) s || negb (any_char Settings.is_digit s).

(** ** CORS origins (line 21) *)

(** [s.split(sep)] for a separator of one character: the text is cut at
    every occurrence of the separator, and empty pieces are kept. *)
Fixpoint split (sep : ascii) (s : string) : list string :=
  match s with
  | EmptyString => [EmptyString]
  | String c r =>
      if Ascii.eqb c sep then EmptyString :: split sep r
      else
        match split sep r with
        | piece :: pieces => String c piece :: pieces
        | [] => [String c EmptyString]
        end
  end.

Definition comma : ascii := Ascii.ascii_of_N 44.

(** [origins = os.getenv("CORS_ORIGINS", "*").split(",")] *)
Definition origins (environ : gmap string string) : list string :=
  split comma (Settings.getenv_str environ "CORS_ORIGINS" "*").

(** *** More vocabulary *)

(** [sep.join(pieces)], the inverse that [split] is measured against. *)
Fixpoint join (sep : ascii) (pieces : list string) : string :=
  match pieces with
  | [] => EmptyString
  | [piece] => piece
  | piece :: rest => piece +:+ String sep (join sep rest)
  end.

Fixpoint count_char (c : ascii) (s : string) : nat :=
  match s with
  | EmptyString => 0
  | String d r => (if Ascii.eqb d c then 1 else 0) + count_char c r
  end.

Definition first_char (s : string) : option ascii :=
  match s with
  | EmptyString => None
  | String c _ => Some c
  end.

Fixpoint last_char (s : string) : option ascii :=
  match s with
  | EmptyString => None
  | String c EmptyString => Some c
  | String _ r => last_char r
  end.

(** Nothing but white space (in the sense of [str.isspace]). *)
Definition blank (s : string) : bool := negb (any_char (λ c, negb (is_space c)) s).

(** A URL as [read_urls] hands it over: not empty, not a comment, no
    white space at either end. *)
Definition clean_url (u : string) : Prop :=
  u ≠ "" ∧ first_char u ≠ Some (Ascii.ascii_of_N 35) ∧ strip u = u.

(** What a finished call handed back, if it did not raise. *)
Definition returned {A} (m : py A) : option A :=
  match m with
  | Return a => Some a
  | Raise _ => None
  end.

(** The same world with the futures handed back in another order. *)
Definition reschedule (w : world) (pick' : nat → nat) : world :=
  {| fs := fs w; http := http w; pick := pick' |}.

(** The exact difference of the two clock readings. *)
Definition measured (x : exchange) : Q := (clock_after x - clock_before x)%Q.

(** The span that [check_endpoint] rounds: the float [time.time() - start]. *)
Definition span (x : exchange) : Q := float_sub (clock_after x) (clock_before x).

(** Decimal numerals, to say which integer a text spells. *)
Definition digit_char (d : N) : ascii := Ascii.ascii_of_N (48 + d).

Fixpoint numeral (ds : list N) : string :=
  match ds with
  | [] => EmptyString
  | d :: rest => String (digit_char d) (numeral rest)
  end.

Definition numeral_value (ds : list N) : Z :=
  fold_left (λ acc d, 10 * acc + Z.of_N d) ds 0.

Inductive sign : Set := Unsigned | Plus | Minus.

Definition sign_text (sg : sign) : string :=
  match sg with
  | Unsigned => ""
  | Plus => "+"
  | Minus => "-"
  end.

Definition sign_factor (sg : sign) : Z :=
  match sg with
  | Minus => -1
  | _ => 1
  end.

(** Nothing but the white space that [int] skips. *)
Definition padding (s : string) : bool :=
  negb (any_char (λ c, negb (Settings.is_int_space c)) s).

(** The text [s] spells the integer [z]: white space, an optional sign,
    one to 4300 decimal digits, white space. *)
Definition spells (s : string) (z : Z) : Prop :=
  ∃ (pre : string) (sg : sign) (ds : list N) (post : string),
    s = pre +:+ sign_text sg +:+ numeral ds +:+ post
    ∧ padding pre = true ∧ padding post = true
    ∧ ds ≠ [] ∧ Forall (λ d, (d < 10)%N) ds ∧ (length ds ≤ 4300)%nat
    ∧ z = sign_factor sg * numeral_value ds.

(** What a setting stands for: its default when the variable is unset,
    the integer that its text spells when it is set. *)
Definition configured (setting : option string) (default z : Z) : Prop :=
  match setting with
  | None => z = default
  | Some s => spells s z
  end.

(** *** Sample runs *)

Module Sample.

Definition newline : string := String (Ascii.ascii_of_N 10) EmptyString.

Definition cfg : settings :=
  {| TIMEOUT := 2; URL_FILE := "endpoints.txt"; MAX_WORKERS := 10 |}.

(** A call answered between two instants; each reading is the float
    nearest to the instant. *)
Definition answer (status_code : Z) (start now : Q) : exchange :=
  {| clock_before := binary64 start; outcome := Response status_code;
     clock_after := binary64 now |}.

Definition failure (e : py_exception) : exchange :=
  {| clock_before := 0; outcome := Fails e; clock_after := 0 |}.

Definition ReadTimeout : py_exception := PyExc "ReadTimeout" TimeoutFamily.
Definition ConnectionError : py_exception := PyExc "ConnectionError" RequestFamily.

(** An exception of the layer under [requests] that [requests] lets
    through as it is (raised for a host label of more than 63
    characters); it does not derive from [RequestException]. *)
Definition LocationParseError : py_exception :=
  PyExc "LocationParseError" ForeignFamily.

Definition long_label_url : string :=
  "http://aaaaaaaaaaaaaaaaaaaaaaaaaaaaaaaaaaaaaaaaaaaaaaaaaaaaaaaaaaaaaaaa.example/".

(** A file with a comment, a blank line, padding and a URL listed twice. *)
Definition url_file : list string :=
  [ "# fleet" +:+ newline;
    "http://ok.example/" +:+ newline;
    newline;
    "  http://slow.example/  " +:+ newline;
    "http://bad.example/" +:+ newline;
    "http://ok.example/" ].

(** The first call is answered in a tenth of a second, the second runs
    into the client's timeout, the third is refused, the fourth is
    answered a hundredth of a second past the budget. The third future
    is handed back first. *)
Definition fleet : world :=
  {| fs := {[ "endpoints.txt" := RegularFile url_file ]};
     http := λ i _,
       match i with
       | 0%nat => answer 200 (10 # 1) (101 # 10)
       | 1%nat => failure ReadTimeout
       | 2%nat => failure ConnectionError
       | _ => answer 200 (10 # 1) (1201 # 100)
       end;
     pick := λ k, match k with 0%nat => 2%nat | _ => 0%nat end |}.

Definition late : exchange := answer 200 (10 # 1) (1201 # 100).

Definition late_result : EndpointResult :=
  {| url := "http://ok.example/"; result := "TIMEOUT";
     status := Some 200; time := Some (round2 ((1201 # 100) - (10 # 1))) |}.

Definition no_file : world :=
  {| fs := ∅; http := λ _ _, answer 200 0 0; pick := λ _, 0%nat |}.

Definition empty_file : world :=
  {| fs := {[ "endpoints.txt" := RegularFile ["# nothing yet" +:+ newline; newline] ]};
     http := λ _ _, answer 200 0 0; pick := λ _, 0%nat |}.

(** The URL file is there and holds bytes that do not decode as text. *)
Definition garbled : world :=
  {| fs := {[ "endpoints.txt" := Unreadable "UnicodeDecodeError" ]};
     http := λ _ _, answer 200 0 0; pick := λ _, 0%nat |}.

(** Two URLs; the exchange with the second one ends in
    [LocationParseError]. *)
Definition stray : world :=
  {| fs := {[ "endpoints.txt" :=
                RegularFile ["http://ok.example/" +:+ newline; long_label_url] ]};
     http := λ i _,
       match i with
       | 0%nat => answer 200 (10 # 1) (101 # 10)
       | _ => failure LocationParseError
       end;
     pick := λ _, 0%nat |}.

(** One URL, same ending. *)
Definition lone_stray : world :=
  {| fs := {[ "endpoints.txt" := RegularFile [long_label_url] ]};
     http := λ _ _, failure LocationParseError;
     pick := λ _, 0%nat |}.

End Sample.

(** * Properties *)

Section collecting.
Context {A : Type}.
Implicit Types (l pending : list A) (futures : list (py A)).

Lemma as_completed_Permutation pick' step l :
  as_completed pick' step (length l) l ≡ₚ l.
Proof.
  remember (length l) as n eqn:Hn.
  revert step l Hn. induction n as [|n IH]; intros step l Hn; simpl.
  - by destruct l.
  - rewrite <- Hn.
    assert (Hi : (pick' step mod S n < length l)%nat)
      by (rewrite <- Hn; apply Nat.mod_upper_bound; lia).
    destruct (lookup_lt_is_Some_2 _ _ Hi) as [fut Hfut].
    rewrite Hfut.
    rewrite (delete_Permutation l _ fut Hfut) at 2.
    constructor. apply IH.
    rewrite length_delete by eauto. lia.
Qed.

Lemma as_completed_fmap {B} (f : A → B) pick' step fuel l :
  as_completed pick' step fuel (f <$> l) = f <$> as_completed pick' step fuel l.
Proof.
  revert step l. induction fuel as [|fuel IH]; intros step l; simpl; [done|].
  rewrite length_fmap, list_lookup_fmap.
  destruct (l !! _) as [fut|]; simpl; [|done].
  by rewrite <- list_fmap_delete, IH.
Qed.

Lemma collect_Return results (rs : list A) :
  collect results (Return <$> rs) = Return (results ++ rs).
Proof.
  revert results. induction rs as [|r rs IH]; intros results; simpl.
  - by rewrite app_nil_r.
  - change (collect (results ++ [r]) (Return <$> rs) = Return (results ++ r :: rs)).
    rewrite IH. by rewrite <- app_assoc.
Qed.

Lemma collect_Return_inv results futures out :
  collect results futures = Return out →
  ∃ rs, out = results ++ rs ∧ futures = Return <$> rs.
Proof.
  revert results. induction futures as [|f futures IH]; intros results; simpl.
  - intros [= <-]. exists []. by rewrite app_nil_r.
  - destruct f as [r|e]; [|discriminate].
    change (Return r ≫= _) with (collect (results ++ [r]) futures).
    intros (rs & -> & ->)%IH. exists (r :: rs).
    by rewrite <- app_assoc.
Qed.

Lemma collect_Raise results futures e :
  Raise e ∈ futures → returns (collect results futures) = false.
Proof.
  intros He. destruct (collect results futures) as [out|] eqn:Hc; [|done].
  apply collect_Return_inv in Hc as (rs & _ & ->).
  apply list_elem_of_fmap in He as (? & ? & _). discriminate.
Qed.
End collecting.

(** ** Rounding *)

Section rounding.
Local Open Scope Q_scope.

Lemma round_half_even_near (x : Q) :
  inject_Z (round_half_even x) - (1 # 2) <= x
  ∧ x <= inject_Z (round_half_even x) + (1 # 2).
Proof.
  unfold round_half_even.
  pose proof (Qfloor_le x) as Hlo. pose proof (Qlt_floor x) as Hhi.
  rewrite inject_Z_plus in Hhi. change (inject_Z 1) with 1 in Hhi.
  assert (Hlt : (x - inject_Z (Qfloor x) ?= 1 # 2) = Lt →
                x - inject_Z (Qfloor x) < 1 # 2) by (by rewrite Qlt_alt).
  assert (Hgt : (x - inject_Z (Qfloor x) ?= 1 # 2) = Gt →
                1 # 2 < x - inject_Z (Qfloor x)) by (by rewrite Qgt_alt).
  assert (Heq : (x - inject_Z (Qfloor x) ?= 1 # 2) = Eq →
                x - inject_Z (Qfloor x) == 1 # 2) by (by rewrite Qeq_alt).
  destruct (x - inject_Z (Qfloor x) ?= 1 # 2).
  - specialize (Heq eq_refl). destruct (Z.even (Qfloor x));
      rewrite ?inject_Z_plus; change (inject_Z 1) with 1; lra.
  - specialize (Hlt eq_refl). lra.
  - specialize (Hgt eq_refl). rewrite inject_Z_plus.
    change (inject_Z 1) with 1. lra.
Qed.

Lemma round_half_even_inject_Z (k : Z) (x : Q) :
  x == inject_Z k → round_half_even x = k.
Proof.
  intros Hx. unfold round_half_even.
  assert (Hf : Qfloor x = k) by (rewrite Hx; apply Qfloor_Z).
  rewrite Hf.
  assert (Hc : (x - inject_Z k ?= 1 # 2) = Lt) by (rewrite <- Qlt_alt; lra).
  by rewrite Hc.
Qed.


Lemma round2_hundredths (k : Z) (x : Q) : x == k # 100 → round2 x = k # 100.
Proof.
  intros Hx. unfold round2. f_equal.
  apply round_half_even_inject_Z. rewrite Hx, (Qmake_Qdiv k 100).
  change (inject_Z (Z.pos 100)) with 100. field.
Qed.
End rounding.

(** ** The probe *)

Lemma check_endpoint_Response u timeout x status_code :
  outcome x = Response status_code →
  check_endpoint u timeout x =
    Return {| url := u; status := Some status_code;
              time := Some (round2 (span x));
              result := if Qle_bool (round2 (span x)) (inject_Z timeout)
                        then "UP" else "TIMEOUT" |}.
Proof. intros Hx. unfold check_endpoint, probe, requests_get. by rewrite Hx. Qed.

Lemma check_endpoint_Fails u timeout x e :
  outcome x = Fails e →
  check_endpoint u timeout x =
    if isinstance_Timeout e then
      Return {| url := u; status := None; time := None; result := "TIMEOUT" |}
    else if isinstance_RequestException e then
      Return {| url := u; status := None; time := None;
                result := "DOWN (" +:+ exc_class_name e +:+ ")" |}
    else Raise e.
Proof. intros Hx. unfold check_endpoint, probe, requests_get. by rewrite Hx. Qed.

Lemma check_endpoint_url u timeout x r :
  check_endpoint u timeout x = Return r → url r = u.
Proof.
  destruct (outcome x) as [c|e] eqn:Hx.
  - rewrite (check_endpoint_Response _ _ _ _ Hx). by intros [= <-].
  - rewrite (check_endpoint_Fails _ _ _ _ Hx).
    destruct (isinstance_Timeout e), (isinstance_RequestException e);
      by intros [= <-].
Qed.

Lemma check_endpoint_both_or_neither u timeout x r :
  check_endpoint u timeout x = Return r →
  is_Some (status r) ↔ is_Some (time r).
Proof.
  destruct (outcome x) as [c|e] eqn:Hx.
  - rewrite (check_endpoint_Response _ _ _ _ Hx). intros [= <-]; simpl.
    split; eauto.
  - rewrite (check_endpoint_Fails _ _ _ _ Hx).
    destruct (isinstance_Timeout e), (isinstance_RequestException e);
      intros [= <-]; simpl; split; by intros [? [=]].
Qed.

Lemma check_endpoint_handled u timeout x :
  handled x = true → ∃ r, check_endpoint u timeout x = Return r.
Proof.
  unfold handled. destruct (outcome x) as [c|e] eqn:Hx.
  - rewrite (check_endpoint_Response _ _ _ _ Hx). eauto.
  - rewrite (check_endpoint_Fails _ _ _ _ Hx). intros ->.
    destruct (isinstance_Timeout e); eauto.
Qed.

Lemma check_endpoint_unhandled u timeout x :
  handled x = false → returns (check_endpoint u timeout x) = false.
Proof.
  unfold handled. destruct (outcome x) as [c|e] eqn:Hx; [done|].
  rewrite (check_endpoint_Fails _ _ _ _ Hx). intros He. rewrite He.
  unfold isinstance_RequestException, isinstance_Timeout in *.
  by destruct (exc_family_of e).
Qed.

(** ** The handler *)

Lemma path_exists_Some fs' path n : fs' !! path = Some n → path_exists fs' path = true.
Proof. intros H. unfold path_exists. apply bool_decide_eq_true. eauto. Qed.

Lemma path_exists_None fs' path : fs' !! path = None → path_exists fs' path = false.
Proof.
  intros H. unfold path_exists. apply bool_decide_eq_false.
  rewrite H. by intros [? [=]].
Qed.

Lemma check_endpoints_missing cfg w :
  fs w !! URL_FILE cfg = None →
  check_endpoints cfg w = {| requested := []; response := Return [not_found] |}.
Proof.
  intros H. unfold check_endpoints. by rewrite (path_exists_None _ _ H).
Qed.

Lemma check_endpoints_available cfg w lines :
  fs w !! URL_FILE cfg = Some (RegularFile lines) →
  1 ≤ MAX_WORKERS cfg →
  check_endpoints cfg w =
    {| requested := read_urls lines;
       response :=
         collect [] (as_completed (pick w) 0
                       (length (submit_all cfg w (read_urls lines)))
                       (submit_all cfg w (read_urls lines))) |}.
Proof.
  intros Hf Hw. unfold check_endpoints, open_lines, ThreadPoolExecutor.
  rewrite (path_exists_Some _ _ _ Hf), Hf; simpl.
  destruct (Z.leb_spec (MAX_WORKERS cfg) 0); [lia|done].
Qed.

(** Whatever list the handler returns is the placeholder for a missing
    file, or holds precisely what the submitted calls returned. *)
Lemma check_endpoints_inv cfg w rs :
  response (check_endpoints cfg w) = Return rs →
  (fs w !! URL_FILE cfg = None ∧ rs = [not_found])
  ∨ ∃ lines, fs w !! URL_FILE cfg = Some (RegularFile lines)
      ∧ 1 ≤ MAX_WORKERS cfg
      ∧ Return <$> rs ≡ₚ submit_all cfg w (read_urls lines).
Proof.
  destruct (fs w !! URL_FILE cfg) as [[lines| |class_name]|] eqn:Hf.
  - destruct (Z.leb_spec (MAX_WORKERS cfg) 0) as [Hw|Hw].
    + unfold check_endpoints, open_lines, ThreadPoolExecutor.
      rewrite (path_exists_Some _ _ _ Hf), Hf; simpl.
      destruct (Z.leb_spec (MAX_WORKERS cfg) 0); [done|lia].
    + rewrite (check_endpoints_available _ _ _ Hf) by lia; simpl.
      intros (rs' & -> & Hrs)%collect_Return_inv. right.
      exists lines. split_and!; [done|lia|]. simpl.
      rewrite <- Hrs. apply as_completed_Permutation.
  - unfold check_endpoints, open_lines.
    by rewrite (path_exists_Some _ _ _ Hf), Hf.
  - unfold check_endpoints, open_lines.
    by rewrite (path_exists_Some _ _ _ Hf), Hf.
  - rewrite (check_endpoints_missing _ _ Hf). intros [= <-]. by left.
Qed.

Lemma submit_all_handled cfg w urls :
  (∀ i u, urls !! i = Some u → handled (http w i u) = true) →
  ∃ rs, submit_all cfg w urls = Return <$> rs ∧ url <$> rs = urls.
Proof.
  unfold submit_all. generalize (http w) as h.
  induction urls as [|u urls IH]; intros h Hall; simpl.
  - by exists [].
  - destruct (check_endpoint_handled u (TIMEOUT cfg) (h 0%nat u)) as [r Hr];
      [by apply (Hall 0%nat)|].
    destruct (IH (h ∘ S)) as (rs & Hrs & Hurls);
      [intros i u' Hi; by apply (Hall (S i))|].
    exists (r :: rs). rewrite Hr. simpl. split.
    + f_equal. exact Hrs.
    + f_equal; [by eapply check_endpoint_url|done].
Qed.

Lemma handled_batch cfg w lines :
  fs w !! URL_FILE cfg = Some (RegularFile lines) →
  1 ≤ MAX_WORKERS cfg →
  (∀ i u, read_urls lines !! i = Some u → handled (http w i u) = true) →
  ∃ rs0,
    submit_all cfg w (read_urls lines) = Return <$> rs0
    ∧ url <$> rs0 = read_urls lines
    ∧ response (check_endpoints cfg w)
      = Return (as_completed (pick w) 0 (length rs0) rs0).
Proof.
  intros Hf Hw Hall.
  destruct (submit_all_handled cfg w _ Hall) as (rs0 & Hsub & Hurls).
  exists rs0. split_and!; [done..|].
  rewrite (check_endpoints_available _ _ _ Hf Hw); simpl.
  rewrite Hsub, length_fmap, as_completed_fmap.
  apply (collect_Return []).
Qed.

(** ** The claims *)

(** C3. In every result that [check_endpoint] or [check_endpoints] hands
    out -- a response, a client timeout, a request failure, or the
    placeholder for a missing URL file -- [status] holds a value exactly
    when [time] does. *)
Theorem status_present_iff_time_present (r : EndpointResult) :
  produced r → is_Some (status r) ↔ is_Some (time r).
Proof.
  intros [u timeout x Hr | cfg w rs Hrs Hin].
  - by eapply check_endpoint_both_or_neither.
  - apply check_endpoints_inv in Hrs as [[_ ->] | (lines & _ & _ & Hperm)].
    + apply list_elem_of_singleton in Hin as ->. simpl.
      split; by intros [? [=]].
    + assert (Hfut : Return r ∈ submit_all cfg w (read_urls lines)).
      { rewrite <- Hperm. by apply list_elem_of_fmap_2. }
      apply list_elem_of_lookup in Hfut as [i Hi].
      unfold submit_all in Hi. rewrite list_lookup_imap in Hi.
      destruct (read_urls lines !! i) as [u|]; [|done].
      injection Hi as Hi. by eapply check_endpoint_both_or_neither.
Qed.

Lemma status_present_iff_time_present_witness :
  produced Sample.late_result
  ∧ (is_Some (status Sample.late_result) ↔ is_Some (time Sample.late_result)).
Proof.
  assert (Hr : produced Sample.late_result).
  { apply (by_check_endpoints _ Sample.cfg Sample.fleet
             (match response (check_endpoints Sample.cfg Sample.fleet) with
              | Return rs => rs | Raise _ => [] end)).
    - vm_compute. reflexivity.
    - vm_compute. do 3 apply list_elem_of_further. apply list_elem_of_here. }
  split; [exact Hr | exact (status_present_iff_time_present _ Hr)].
Defined.



(** C5. When the client gives up waiting -- [requests.get] raises
    [Timeout] or one of its subclasses -- the result for that URL is
    TIMEOUT, with neither [status] nor [time]. *)
Theorem check_endpoint_on_timeout (u : string) (timeout : Z) (x : exchange)
    (e : py_exception) :
  outcome x = Fails e →
  isinstance_Timeout e = true →
  check_endpoint u timeout x =
    Return {| url := u; result := "TIMEOUT"; status := None; time := None |}.
Proof.
  intros Hx He. rewrite (check_endpoint_Fails _ _ _ _ Hx). by rewrite He.
Qed.

Lemma check_endpoint_on_timeout_witness :
  outcome (Sample.failure Sample.ReadTimeout) = Fails Sample.ReadTimeout
  ∧ isinstance_Timeout Sample.ReadTimeout = true
  ∧ check_endpoint "http://slow.example/" 2 (Sample.failure Sample.ReadTimeout) =
      Return {| url := "http://slow.example/"; result := "TIMEOUT";
                status := None; time := None |}.
Proof.
  split_and!; [reflexivity..|].
  exact (check_endpoint_on_timeout "http://slow.example/" 2
           (Sample.failure Sample.ReadTimeout) Sample.ReadTimeout
           eq_refl eq_refl).
Defined.

(** C6, as the code has it. When the request fails with an exception of
    the [RequestException] hierarchy that is not a timeout, the result for
    that URL reads "DOWN (" followed by the name of the exception's class
    and ")", with neither [status] nor [time]. *)
Theorem check_endpoint_on_request_failure (u : string) (timeout : Z)
    (x : exchange) (e : py_exception) :
  outcome x = Fails e →
  isinstance_RequestException e = true →
  isinstance_Timeout e = false →
  check_endpoint u timeout x =
    Return {| url := u; result := "DOWN (" +:+ exc_class_name e +:+ ")";
              status := None; time := None |}.
Proof.
  intros Hx He Ht. rewrite (check_endpoint_Fails _ _ _ _ Hx).
  by rewrite Ht, He.
Qed.

Lemma check_endpoint_on_request_failure_witness :
  outcome (Sample.failure Sample.ConnectionError) = Fails Sample.ConnectionError
  ∧ isinstance_RequestException Sample.ConnectionError = true
  ∧ isinstance_Timeout Sample.ConnectionError = false
  ∧ check_endpoint "http://bad.example/" 2 (Sample.failure Sample.ConnectionError) =
      Return {| url := "http://bad.example/"; result := "DOWN (ConnectionError)";
                status := None; time := None |}.
Proof.
  split_and!; [reflexivity..|].
  exact (check_endpoint_on_request_failure "http://bad.example/" 2
           (Sample.failure Sample.ConnectionError) Sample.ConnectionError
           eq_refl eq_refl eq_refl).
Defined.

(** C6, as stated, fails: not every failure other than a timeout is a
    request failure. For the URL with the over-long host label the request
    ends in [LocationParseError], which is neither a [Timeout] nor a
    [RequestException]; [check_endpoint] then raises it and hands out no
    result, DOWN or other. *)
Lemma malformed_url_gets_no_down_result :
  outcome (Sample.failure Sample.LocationParseError)
    = Fails Sample.LocationParseError
  ∧ isinstance_Timeout Sample.LocationParseError = false
  ∧ check_endpoint Sample.long_label_url 2
      (Sample.failure Sample.LocationParseError)
    = Raise Sample.LocationParseError
  ∧ ¬ ∃ r : EndpointResult,
        check_endpoint Sample.long_label_url 2
          (Sample.failure Sample.LocationParseError)
        = Return r.
Proof.
  split_and!; [reflexivity..|]. by intros [r Hr].
Qed.

(** C7. When the URL file does not exist, the handler sends no request and
    returns one result only: url "N/A", result "ERROR: URL file not
    found", no [status], no [time]. *)
Theorem check_endpoints_without_url_file (cfg : settings) (w : world) :
  fs w !! URL_FILE cfg = None →
  requested (check_endpoints cfg w) = []
  ∧ response (check_endpoints cfg w) =
      Return [ {| url := "N/A"; result := "ERROR: URL file not found";
                  status := None; time := None |} ].
Proof. intros Hf. by rewrite (check_endpoints_missing _ _ Hf). Qed.

Lemma check_endpoints_without_url_file_witness :
  fs Sample.no_file !! URL_FILE Sample.cfg = None
  ∧ requested (check_endpoints Sample.cfg Sample.no_file) = []
  ∧ response (check_endpoints Sample.cfg Sample.no_file) =
      Return [ {| url := "N/A"; result := "ERROR: URL file not found";
                  status := None; time := None |} ].
Proof.
  split; [reflexivity|].
  exact (check_endpoints_without_url_file Sample.cfg Sample.no_file eq_refl).
Defined.

(** C8. When the URL file is there and lists no URL, the handler (with a
    pool of at least one worker) returns the empty list: no exception, no
    placeholder result, no request. *)
Theorem check_endpoints_on_empty_list (cfg : settings) (w : world)
    (lines : list string) :
  fs w !! URL_FILE cfg = Some (RegularFile lines) →
  read_urls lines = [] →
  1 ≤ MAX_WORKERS cfg →
  response (check_endpoints cfg w) = Return []
  ∧ requested (check_endpoints cfg w) = [].
Proof.
  intros Hf Hurls Hw.
  rewrite (check_endpoints_available _ _ _ Hf Hw), Hurls. done.
Qed.

Lemma check_endpoints_on_empty_list_witness :
  fs Sample.empty_file !! URL_FILE Sample.cfg
    = Some (RegularFile ["# nothing yet" +:+ Sample.newline; Sample.newline])
  ∧ read_urls ["# nothing yet" +:+ Sample.newline; Sample.newline] = []
  ∧ 1 ≤ MAX_WORKERS Sample.cfg
  ∧ response (check_endpoints Sample.cfg Sample.empty_file) = Return []
  ∧ requested (check_endpoints Sample.cfg Sample.empty_file) = [].
Proof.
  split_and!; [reflexivity|reflexivity|by vm_compute|..];
    apply (check_endpoints_on_empty_list Sample.cfg Sample.empty_file
             ["# nothing yet" +:+ Sample.newline; Sample.newline]);
    (reflexivity || by vm_compute).
Defined.

(** C1, as the code has it. A failure of the request -- an exception of
    the [RequestException] hierarchy -- is caught inside [check_endpoint]
    and becomes the result of that URL alone: TIMEOUT for a timeout,
    DOWN (class name) otherwise, without [status] or [time]. When every
    exchange of a batch ends with a response or with such a failure (and
    the pool has at least one worker), [check_endpoints] does not raise:
    it returns, in some order, exactly what each call made of its own URL
    and exchange. *)
Theorem request_failures_stay_local (cfg : settings) (w : world)
    (lines : list string) :
  fs w !! URL_FILE cfg = Some (RegularFile lines) →
  1 ≤ MAX_WORKERS cfg →
  (∀ i u, read_urls lines !! i = Some u → handled (http w i u) = true) →
  ∃ rs : list EndpointResult,
    response (check_endpoints cfg w) = Return rs
    ∧ Return <$> rs ≡ₚ
        imap (λ i u, check_endpoint u (TIMEOUT cfg) (http w i u)) (read_urls lines)
    ∧ ∀ i u e,
        read_urls lines !! i = Some u →
        outcome (http w i u) = Fails e →
        {| url := u; status := None; time := None;
           result := if isinstance_Timeout e then "TIMEOUT"
                     else "DOWN (" +:+ exc_class_name e +:+ ")" |} ∈ rs.
Proof.
  intros Hf Hw Hall.
  destruct (handled_batch cfg w lines Hf Hw Hall) as (rs0 & Hsub & _ & Hresp).
  pose proof (as_completed_Permutation (pick w) 0 rs0) as Hperm.
  eexists. split; [exact Hresp|]. split.
  - fold (submit_all cfg w (read_urls lines)). by rewrite Hsub, Hperm.
  - intros i u e Hi Hx. rewrite Hperm.
    assert (Hfut : submit_all cfg w (read_urls lines) !! i
                   = Some (check_endpoint u (TIMEOUT cfg) (http w i u))).
    { unfold submit_all. by rewrite list_lookup_imap, Hi. }
    rewrite Hsub, list_lookup_fmap in Hfut.
    destruct (rs0 !! i) as [r|] eqn:Hr; [|done].
    injection Hfut as Hfut. apply list_elem_of_lookup_2 in Hr.
    rewrite (check_endpoint_Fails _ _ _ _ Hx) in Hfut.
    specialize (Hall i u Hi). unfold handled in Hall. rewrite Hx in Hall.
    rewrite Hall in Hfut.
    destruct (isinstance_Timeout e); by injection Hfut as <-.
Qed.

Lemma request_failures_stay_local_witness :
  ∃ rs : list EndpointResult,
    response (check_endpoints Sample.cfg Sample.fleet) = Return rs
    ∧ Return <$> rs ≡ₚ
        imap (λ i u, check_endpoint u (TIMEOUT Sample.cfg) (http Sample.fleet i u))
             (read_urls Sample.url_file)
    ∧ ∀ i u e,
        read_urls Sample.url_file !! i = Some u →
        outcome (http Sample.fleet i u) = Fails e →
        {| url := u; status := None; time := None;
           result := if isinstance_Timeout e then "TIMEOUT"
                     else "DOWN (" +:+ exc_class_name e +:+ ")" |} ∈ rs.
Proof.
  apply (request_failures_stay_local Sample.cfg Sample.fleet Sample.url_file).
  - reflexivity.
  - by vm_compute.
  - by intros [|[|[|[|i]]]] u Hi.
Defined.

(** C1, as stated, fails: an exception from outside the
    [RequestException] hierarchy is not turned into a result. It leaves
    [check_endpoint], and [check_endpoints] raises it in place of the whole
    list, the result of the other URL included. *)
Lemma foreign_exception_aborts_batch :
  requested (check_endpoints Sample.cfg Sample.stray)
    = ["http://ok.example/"; Sample.long_label_url]
  ∧ check_endpoint Sample.long_label_url 2
      (http Sample.stray 1 Sample.long_label_url)
    = Raise Sample.LocationParseError
  ∧ check_endpoint "http://ok.example/" 2
      (http Sample.stray 0 "http://ok.example/")
    = Return {| url := "http://ok.example/"; result := "UP";
                status := Some 200; time := Some (10 # 100) |}
  ∧ response (check_endpoints Sample.cfg Sample.stray)
    = Raise Sample.LocationParseError
  ∧ ¬ ∃ rs, response (check_endpoints Sample.cfg Sample.stray) = Return rs.
Proof.
  split_and!; [reflexivity..|]. intros [rs Hrs].
  vm_compute in Hrs. discriminate.
Qed.

(** C2, as the code has it. For every URL file read with a pool of at
    least one worker, when every exchange ends with a response or with an
    exception of the [RequestException] hierarchy, the handler returns one
    result per listed URL (a URL listed twice has two), and the [url]
    fields of the results are the listed URLs, unchanged, in some order. *)
Theorem one_result_per_url (cfg : settings) (w : world) (lines : list string) :
  fs w !! URL_FILE cfg = Some (RegularFile lines) →
  1 ≤ MAX_WORKERS cfg →
  (∀ i u, read_urls lines !! i = Some u → handled (http w i u) = true) →
  ∃ rs : list EndpointResult,
    response (check_endpoints cfg w) = Return rs
    ∧ length rs = length (read_urls lines)
    ∧ url <$> rs ≡ₚ read_urls lines.
Proof.
  intros Hf Hw Hall.
  destruct (handled_batch cfg w lines Hf Hw Hall) as (rs0 & _ & Hurls & Hresp).
  pose proof (as_completed_Permutation (pick w) 0 rs0) as Hperm.
  eexists. split; [exact Hresp|]. split.
  - by rewrite Hperm, <- Hurls, length_fmap.
  - by rewrite Hperm, Hurls.
Qed.

Lemma one_result_per_url_witness :
  read_urls Sample.url_file
    = ["http://ok.example/"; "http://slow.example/"; "http://bad.example/";
       "http://ok.example/"]
  ∧ ∃ rs : list EndpointResult,
      response (check_endpoints Sample.cfg Sample.fleet) = Return rs
      ∧ length rs = length (read_urls Sample.url_file)
      ∧ url <$> rs ≡ₚ read_urls Sample.url_file.
Proof.
  split; [reflexivity|].
  apply (one_result_per_url Sample.cfg Sample.fleet Sample.url_file).
  - reflexivity.
  - by vm_compute.
  - by intros [|[|[|[|i]]]] u Hi.
Defined.

(** C2, as stated, fails: with one URL whose exchange ends in an exception
    from outside the [RequestException] hierarchy, the request is made and
    the handler returns no list at all. *)
Lemma unhandled_exception_leaves_no_result :
  requested (check_endpoints Sample.cfg Sample.lone_stray)
    = [Sample.long_label_url]
  ∧ ¬ ∃ rs : list EndpointResult,
        response (check_endpoints Sample.cfg Sample.lone_stray) = Return rs
        ∧ url <$> rs ≡ₚ [Sample.long_label_url].
Proof.
  split; [reflexivity|]. intros (rs & Hrs & _).
  vm_compute in Hrs. discriminate.
Qed.

(** ** Settings *)

Section int_of_str.
Import Settings.

Lemma skip_space_any p s :
  (∀ c, is_int_space c = true → p c = false) →
  any_char p (skip_space s) = any_char p s.
Proof.
  intros Hp. induction s as [|c s IH]; simpl; [done|].
  destruct (is_int_space c) eqn:Hc; [|done].
  by rewrite IH, (Hp c Hc).
Qed.

Lemma take_sign_any p s :
  (∀ c, (code c =? 43)%N || (code c =? 45)%N = true → p c = false) →
  any_char p (take_sign s).2 = any_char p s.
Proof.
  intros Hp. destruct s as [|c s]; simpl; [done|].
  specialize (Hp c).
  destruct (code c =? 43)%N; simpl in *; [by rewrite Hp|].
  destruct (code c =? 45)%N; simpl in *; [by rewrite Hp|done].
Qed.

Lemma scan_digits_any p u acc n s v n' rest :
  (∀ c, is_digit c || is_underscore c = true → p c = false) →
  scan_digits u acc n s = Some (v, n', rest) →
  any_char p s = any_char p rest.
Proof.
  intros Hp. revert u acc n.
  induction s as [|c s IH]; intros u acc n; simpl.
  - destruct u; [done|]. by intros [= _ _ <-].
  - specialize (Hp c).
    destruct (is_digit c); simpl in *.
    { intros H%IH. by rewrite Hp. }
    destruct (is_underscore c); simpl in *.
    { destruct u; [done|]. intros H%IH. by rewrite Hp. }
    destruct u; [done|]. by intros [= _ _ <-].
Qed.

Lemma scan_digits_count u acc n s v n' rest :
  scan_digits u acc n s = Some (v, n', rest) →
  n' = n ∨ any_char is_digit s = true.
Proof.
  revert u acc n. induction s as [|c s IH]; intros u acc n; simpl.
  - destruct u; [done|]. intros [= _ <- _]. by left.
  - destruct (is_digit c); simpl; [by right|].
    destruct (is_underscore c).
    { destruct u; [done|]. apply IH. }
    destruct u; [done|]. intros [= _ <- _]. by left.
Qed.

Lemma space_is_literal c : is_int_space c = true → negb (literal_char c) = false.
Proof. unfold literal_char. intros ->. by rewrite orb_true_r. Qed.

Lemma sign_is_literal c :
  (code c =? 43)%N || (code c =? 45)%N = true → negb (literal_char c) = false.
Proof.
  unfold literal_char. intros [->| ->]%orb_true_iff;
    by rewrite ?orb_true_r.
Qed.

Lemma digit_is_literal c :
  is_digit c || is_underscore c = true → negb (literal_char c) = false.
Proof. unfold literal_char. intros [->| ->]%orb_true_iff; by rewrite ?orb_true_r. Qed.

Lemma space_is_no_digit c : is_int_space c = true → is_digit c = false.
Proof. revert c. by intros [[] [] [] [] [] [] [] []]. Qed.

Lemma sign_is_no_digit c :
  (code c =? 43)%N || (code c =? 45)%N = true → is_digit c = false.
Proof. revert c. by intros [[] [] [] [] [] [] [] []]. Qed.

(** [int] on text raises nothing but [ValueError], and what it accepts
    spells a whole number. *)
Lemma int_of_str_cases s :
  int_of_str s = Raise ValueError
  ∨ ∃ z, int_of_str s = Return z ∧ not_whole_number s = false.
Proof.
  unfold int_of_str, not_whole_number.
  pose proof (take_sign_any (λ c, negb (literal_char c)) (skip_space s)
                sign_is_literal) as Hlit1.
  pose proof (take_sign_any is_digit (skip_space s) sign_is_no_digit) as Hdig1.
  rewrite (skip_space_any _ s space_is_literal) in Hlit1.
  rewrite (skip_space_any _ s space_is_no_digit) in Hdig1.
  destruct (take_sign (skip_space s)) as [sign body]; simpl in *.
  destruct (starts_with_underscore body); [by left|].
  destruct (scan_digits false 0 0 body) as [[[v n] rest]|] eqn:Hscan;
    [|by left].
  destruct (Nat.eqb_spec n 0) as [|Hn]; [by left|].
  destruct (max_str_digits <? n)%nat; [by left|].
  destruct (skip_space rest) as [|c tail] eqn:Hrest; [|by left].
  right. eexists. split; [done|].
  rewrite <- Hlit1, <- Hdig1.
  rewrite (scan_digits_any _ _ _ _ _ _ _ _ digit_is_literal Hscan).
  rewrite <- (skip_space_any _ rest space_is_literal), Hrest. simpl.
  by destruct (scan_digits_count _ _ _ _ _ _ _ Hscan) as [?| ->].
Qed.

Lemma int_not_whole_number s :
  not_whole_number s = true → int_of_str s = Raise ValueError.
Proof.
  intros Hs.
  destruct (int_of_str_cases s) as [|(z & _ & Hz)]; [done|congruence].
Qed.

Lemma int_raises_ValueError v e : int v = Raise e → e = ValueError.
Proof.
  destruct v as [s|z]; simpl; [|done].
  destruct (int_of_str_cases s) as [->|(z & -> & _)]; [|done].
  by intros [= <-].
Qed.

Lemma string_app_cons c a b : String c a +:+ b = String c (a +:+ b).
Proof. reflexivity. Qed.

Lemma padding_cons c s : padding (String c s) = is_int_space c && padding s.
Proof. unfold padding. simpl. by destruct (is_int_space c). Qed.

Lemma skip_space_padding pre t :
  padding pre = true → skip_space (pre +:+ t) = skip_space t.
Proof.
  induction pre as [|c pre IH]; [done|].
  rewrite padding_cons, string_app_cons. simpl.
  intros [-> Hpre]%andb_true_iff. by apply IH.
Qed.

Lemma skip_space_all s : padding s = true → skip_space s = "".
Proof.
  induction s as [|c s IH]; [done|].
  rewrite padding_cons. simpl. intros [-> Hs]%andb_true_iff. by apply IH.
Qed.

Lemma space_is_no_underscore c : is_int_space c = true → is_underscore c = false.
Proof. revert c. by intros [[] [] [] [] [] [] [] []]. Qed.

Lemma digit_char_spec d :
  (d < 10)%N →
  is_digit (digit_char d) = true
  ∧ digit_value (digit_char d) = Z.of_N d
  ∧ is_int_space (digit_char d) = false
  ∧ is_underscore (digit_char d) = false
  ∧ (code (digit_char d) =? 43)%N = false
  ∧ (code (digit_char d) =? 45)%N = false.
Proof.
  intros Hd.
  assert (Hcase : (d = 0 ∨ d = 1 ∨ d = 2 ∨ d = 3 ∨ d = 4 ∨ d = 5 ∨ d = 6
                   ∨ d = 7 ∨ d = 8 ∨ d = 9)%N) by lia.
  repeat (destruct Hcase as [->|Hcase]); [by vm_compute..|].
  subst d. by vm_compute.
Qed.

Lemma scan_digits_numeral ds post acc n :
  Forall (λ d, (d < 10)%N) ds →
  padding post = true →
  scan_digits false acc n (numeral ds +:+ post)
  = Some (fold_left (λ a d, 10 * a + Z.of_N d) ds acc, (n + length ds)%nat, post).
Proof.
  intros Hds Hpost. revert acc n.
  induction Hds as [|d ds Hd _ IH]; intros acc n.
  - change (numeral [] +:+ post) with post. rewrite Nat.add_0_r.
    destruct post as [|c post]; [done|].
    rewrite padding_cons in Hpost. apply andb_true_iff in Hpost as [Hc _].
    simpl. by rewrite (space_is_no_digit c Hc), (space_is_no_underscore c Hc).
  - change (numeral (d :: ds) +:+ post)
      with (String (digit_char d) (numeral ds +:+ post)).
    destruct (digit_char_spec d Hd) as (Hdig & Hval & _).
    cbn [scan_digits]. rewrite Hdig, Hval, IH. cbn [fold_left length].
    by rewrite Nat.add_succ_r.
Qed.

(** [int] reads every text that spells an integer, as that integer. *)
Lemma int_of_str_spells s z : spells s z → int_of_str s = Return z.
Proof.
  intros (pre & sg & ds & post & -> & Hpre & Hpost & Hne & Hds & Hlen & ->).
  destruct ds as [|d ds]; [done|].
  pose proof (Forall_inv Hds) as Hd.
  destruct (digit_char_spec d Hd) as (Hdig & _ & Hsp & Hus & H43 & H45).
  unfold int_of_str. rewrite (skip_space_padding _ _ Hpre).
  assert (Hsign :
    take_sign (skip_space (sign_text sg +:+ numeral (d :: ds) +:+ post))
    = (sign_factor sg, numeral (d :: ds) +:+ post)).
  { destruct sg.
    - change (sign_text Unsigned +:+ numeral (d :: ds) +:+ post)
        with (String (digit_char d) (numeral ds +:+ post)).
      cbn [skip_space]. rewrite Hsp. cbn [take_sign]. by rewrite H43, H45.
    - done.
    - done. }
  rewrite Hsign.
  change (numeral (d :: ds) +:+ post)
    with (String (digit_char d) (numeral ds +:+ post)) at 1.
  cbn [starts_with_underscore]. rewrite Hus.
  rewrite (scan_digits_numeral _ _ _ _ Hds Hpost).
  cbn [length Nat.add Nat.eqb].
  assert (Hbig : (max_str_digits <? S (length ds))%nat = false).
  { apply Nat.ltb_ge. unfold max_str_digits. simpl in Hlen. lia. }
  rewrite Hbig, (skip_space_all _ Hpost). done.
Qed.
End int_of_str.

(** C10. Both settings go through [int] when the module is loaded. Left
    unset, they are 30 (seconds) and 10 (workers). Set, each becomes the
    integer that its text spells (white space around it and a sign are
    allowed). Set to text that does not spell a whole number -- a fraction
    such as 2.5, letters, nothing -- either of them makes the load raise
    [ValueError]. What a successful load keeps is the integer that [int]
    made of the setting. *)
Theorem settings_are_whole_numbers (environ : gmap string string) :
  (∀ t m : Z,
     configured (environ !! "TIMEOUT") 30 t →
     configured (environ !! "MAX_WORKERS") 10 m →
     Settings.load environ
     = Return {| TIMEOUT := t;
                 URL_FILE := Settings.getenv_str environ "URL_FILE" "endpoints.txt";
                 MAX_WORKERS := m |})
  ∧ (environ !! "TIMEOUT" = None → environ !! "MAX_WORKERS" = None →
     ∃ cfg, Settings.load environ = Return cfg
            ∧ TIMEOUT cfg = 30 ∧ MAX_WORKERS cfg = 10)
  ∧ (∀ cfg, Settings.load environ = Return cfg →
       (environ !! "TIMEOUT" = None → TIMEOUT cfg = 30)
       ∧ (environ !! "MAX_WORKERS" = None → MAX_WORKERS cfg = 10)
       ∧ (∀ s, environ !! "TIMEOUT" = Some s →
            Settings.int_of_str s = Return (TIMEOUT cfg)
            ∧ not_whole_number s = false)
       ∧ (∀ s, environ !! "MAX_WORKERS" = Some s →
            Settings.int_of_str s = Return (MAX_WORKERS cfg)
            ∧ not_whole_number s = false))
  ∧ (∀ key s, key = "TIMEOUT" ∨ key = "MAX_WORKERS" →
       environ !! key = Some s → not_whole_number s = true →
       Settings.load environ = Raise ValueError).
Proof.
  unfold Settings.load, Settings.getenv. split_and!.
  - intros t m Ht Hm.
    assert (Et : Settings.int match environ !! "TIMEOUT" with
                              | Some s => Settings.PyStr s
                              | None => Settings.PyInt 30
                              end = Return t).
    { destruct (environ !! "TIMEOUT") as [s|]; simpl in *;
        [by apply int_of_str_spells|by subst]. }
    assert (Em : Settings.int match environ !! "MAX_WORKERS" with
                              | Some s => Settings.PyStr s
                              | None => Settings.PyInt 10
                              end = Return m).
    { destruct (environ !! "MAX_WORKERS") as [s|]; simpl in *;
        [by apply int_of_str_spells|by subst]. }
    by rewrite Et, Em.
  - intros -> ->. simpl. eauto.
  - intros cfg.
    destruct (environ !! "TIMEOUT") as [t|] eqn:Ht;
      destruct (environ !! "MAX_WORKERS") as [m|] eqn:Hm; simpl.
    + destruct (int_of_str_cases t) as [Et|(zt & Et & Hzt)]; rewrite Et; [done|].
      simpl.
      destruct (int_of_str_cases m) as [Em|(zm & Em & Hzm)]; rewrite Em; [done|].
      simpl. intros [= <-]; simpl. split_and!; try done; by intros ? [= <-].
    + destruct (int_of_str_cases t) as [Et|(zt & Et & Hzt)]; rewrite Et; [done|].
      simpl. intros [= <-]; simpl. split_and!; try done; by intros ? [= <-].
    + destruct (int_of_str_cases m) as [Em|(zm & Em & Hzm)]; rewrite Em; [done|].
      simpl. intros [= <-]; simpl. split_and!; try done; by intros ? [= <-].
    + intros [= <-]; simpl. by split_and!.
  - intros key s [-> | ->] Hs Hbad; rewrite Hs.
    + simpl. by rewrite (int_not_whole_number s Hbad).
    + destruct (environ !! "TIMEOUT") as [t|]; simpl.
      * destruct (int_of_str_cases t) as [Et|(zt & Et & _)]; rewrite Et;
          simpl; [done|].
        by rewrite (int_not_whole_number s Hbad).
      * by rewrite (int_not_whole_number s Hbad).
Qed.

Lemma settings_are_whole_numbers_witness :
  Settings.load {[ "TIMEOUT" := "5"; "MAX_WORKERS" := " +20 " ]}
    = Return {| TIMEOUT := 5; URL_FILE := "endpoints.txt"; MAX_WORKERS := 20 |}
  ∧ Settings.load {[ "TIMEOUT" := "-1" ]}
    = Return {| TIMEOUT := -1; URL_FILE := "endpoints.txt"; MAX_WORKERS := 10 |}
  ∧ (∃ cfg, Settings.load ∅ = Return cfg ∧ TIMEOUT cfg = 30 ∧ MAX_WORKERS cfg = 10)
  ∧ Settings.load {[ "TIMEOUT" := "2.5" ]} = Raise ValueError
  ∧ Settings.load {[ "TIMEOUT" := "5"; "MAX_WORKERS" := "many" ]} = Raise ValueError.
Proof.
  split_and!.
  - refine (proj1 (settings_are_whole_numbers
                     {[ "TIMEOUT" := "5"; "MAX_WORKERS" := " +20 " ]}) 5 20 _ _).
    + exists "", Unsigned, [5%N], "".
      split_and!; [reflexivity..|done| |simpl; lia|reflexivity].
      repeat constructor.
    + exists " ", Plus, [2%N; 0%N], " ".
      split_and!; [reflexivity..|done| |simpl; lia|reflexivity].
      repeat constructor.
  - refine (proj1 (settings_are_whole_numbers {[ "TIMEOUT" := "-1" ]})
              (-1) 10 _ _).
    + exists "", Minus, [1%N], "".
      split_and!; [reflexivity..|done| |simpl; lia|reflexivity].
      repeat constructor.
    + reflexivity.
  - apply (settings_are_whole_numbers ∅); reflexivity.
  - apply (settings_are_whole_numbers {[ "TIMEOUT" := "2.5" ]})
      with (key := "TIMEOUT") (s := "2.5"); [by left|reflexivity..].
  - apply (settings_are_whole_numbers {[ "TIMEOUT" := "5"; "MAX_WORKERS" := "many" ]})
      with (key := "MAX_WORKERS") (s := "many"); [by right|reflexivity..].
Defined.

(** ** Worked runs *)

Example int_of_str_plain : Settings.int_of_str "30" = Return 30.
Proof. reflexivity. Qed.

Example int_of_str_padded : Settings.int_of_str "  -1_000 " = Return (-1000).
Proof. reflexivity. Qed.

Example int_of_str_fraction : Settings.int_of_str "30.5" = Raise ValueError.
Proof. reflexivity. Qed.

Example int_of_str_exponent : Settings.int_of_str "1e3" = Raise ValueError.
Proof. reflexivity. Qed.

Example int_of_str_nothing : Settings.int_of_str "" = Raise ValueError.
Proof. reflexivity. Qed.

Example binary64_of_a_tenth :
  binary64 (1 # 10) == 3602879701896397 # 36028797018963968.
Proof. reflexivity. Qed.

(** The readings 0.003 and 2.008: the exact difference of the two floats
    is just above 2.005, the float difference just below. *)
Example float_sub_rounds :
  (2005 # 1000 < binary64 (2008 # 1000) - binary64 (3 # 1000))%Q
  ∧ (float_sub (binary64 (2008 # 1000)) (binary64 (3 # 1000)) < 2005 # 1000)%Q
  ∧ check_endpoint "http://ok.example/" 2
      (Sample.answer 200 (3 # 1000) (2008 # 1000))
    = Return {| url := "http://ok.example/"; result := "UP";
                status := Some 200; time := Some (200 # 100) |}.
Proof. split_and!; by vm_compute. Qed.

Example late_answer :
  check_endpoint "http://ok.example/" 2 Sample.late
  = Return {| url := "http://ok.example/"; result := "TIMEOUT";
              status := Some 200; time := Some (201 # 100) |}.
Proof. by vm_compute. Qed.

Example unreadable_url_file :
  response (check_endpoints Sample.cfg Sample.garbled)
  = Raise (PyExc "UnicodeDecodeError" ForeignFamily).
Proof. reflexivity. Qed.

Example round2_ties_to_even :
  round2 (2005 # 1000) = 200 # 100 ∧ round2 (2015 # 1000) = 202 # 100.
Proof. split; reflexivity. Qed.

Example read_urls_sample :
  read_urls Sample.url_file
  = ["http://ok.example/"; "http://slow.example/"; "http://bad.example/";
     "http://ok.example/"].
Proof. reflexivity. Qed.

(** The fleet of [Sample.fleet]: the refused call is handed back first,
    then the remaining ones in their order of submission. *)
Example fleet_run :
  response (check_endpoints Sample.cfg Sample.fleet)
  = Return
      [ {| url := "http://bad.example/"; result := "DOWN (ConnectionError)";
           status := None; time := None |};
        {| url := "http://ok.example/"; result := "UP";
           status := Some 200; time := Some (10 # 100) |};
        {| url := "http://slow.example/"; result := "TIMEOUT";
           status := None; time := None |};
        {| url := "http://ok.example/"; result := "TIMEOUT";
           status := Some 200; time := Some (201 # 100) |} ].
Proof. reflexivity. Qed.

(** A pool without workers is refused, even with nothing to check. *)
Example no_worker :
  response (check_endpoints
              {| TIMEOUT := 2; URL_FILE := "endpoints.txt"; MAX_WORKERS := 0 |}
              Sample.empty_file)
  = Raise ValueError.
Proof. reflexivity. Qed.


(** * Further properties *)

(** ** The probe, continued *)

(** X1. [check_endpoint] raises in one case only: [requests.get] raised an
    exception from outside the [RequestException] hierarchy; and it raises
    that very exception. It never raises a request failure, and never
    swallows a foreign exception. *)
Theorem check_endpoint_raises_iff (u : string) (timeout : Z) (x : exchange)
    (e : py_exception) :
  check_endpoint u timeout x = Raise e
  ↔ outcome x = Fails e ∧ isinstance_RequestException e = false.
Proof.
  destruct (outcome x) as [c|e'] eqn:Hx.
  - rewrite (check_endpoint_Response _ _ _ _ Hx). split; [done|]. by intros [? _].
  - rewrite (check_endpoint_Fails _ _ _ _ Hx).
    unfold isinstance_Timeout, isinstance_RequestException.
    destruct e' as [name []]; simpl; split;
      try done; try (intros [[= <-] ?]; done).
    intros [= <-]. done.
Qed.

Lemma check_endpoint_result_cases u timeout x r :
  check_endpoint u timeout x = Return r →
  (∃ c, outcome x = Response c ∧ status r = Some c
        ∧ time r = Some (round2 (span x))
        ∧ result r = (if Qle_bool (round2 (span x)) (inject_Z timeout)
                      then "UP" else "TIMEOUT"))
  ∨ (∃ e, outcome x = Fails e ∧ status r = None ∧ time r = None
          ∧ result r = (if isinstance_Timeout e then "TIMEOUT"
                        else "DOWN (" +:+ exc_class_name e +:+ ")")).
Proof.
  destruct (outcome x) as [c|e] eqn:Hx.
  - rewrite (check_endpoint_Response _ _ _ _ Hx). intros [= <-]. left. eauto.
  - rewrite (check_endpoint_Fails _ _ _ _ Hx). intros Hr. right. exists e.
    destruct (isinstance_Timeout e); [by injection Hr as <-|].
    destruct (isinstance_RequestException e); [by injection Hr as <-|done].
Qed.

(** X2. UP is reported only for a call that was answered: the result then
    carries the status code received and an elapsed time that is at most
    the timeout. *)
Theorem up_means_answered_in_time (u : string) (timeout : Z) (x : exchange)
    (r : EndpointResult) :
  check_endpoint u timeout x = Return r →
  result r = "UP" →
  ∃ (status_code : Z) (elapsed : Q),
    outcome x = Response status_code
    ∧ status r = Some status_code
    ∧ time r = Some elapsed
    ∧ (elapsed <= inject_Z timeout)%Q.
Proof.
  intros [(c & Hx & Hs & Ht & Hres) | (e & _ & _ & _ & Hres)]%check_endpoint_result_cases Hup.
  - exists c, (round2 (span x)). split_and!; try done.
    rewrite Hres in Hup.
    destruct (Qle_bool _ _) eqn:Hle; [by apply Qle_bool_iff|done].
  - rewrite Hres in Hup. by destruct (isinstance_Timeout e).
Qed.

Lemma up_means_answered_in_time_witness :
  ∃ (status_code : Z) (elapsed : Q),
    outcome (Sample.answer 503 (10 # 1) (101 # 10)) = Response status_code
    ∧ status {| url := "http://ok.example/"; result := "UP";
                status := Some 503; time := Some (10 # 100) |} = Some status_code
    ∧ time {| url := "http://ok.example/"; result := "UP";
              status := Some 503; time := Some (10 # 100) |} = Some elapsed
    ∧ (elapsed <= inject_Z 2)%Q.
Proof.
  exact (up_means_answered_in_time "http://ok.example/" 2
           (Sample.answer 503 (10 # 1) (101 # 10)) _ eq_refl eq_refl).
Defined.

Section rounding_order.
Local Open Scope Q_scope.

Lemma inject_Z_succ_le (a b : Z) : (a < b)%Z → inject_Z a + 1 <= inject_Z b.
Proof.
  intros H. change 1 with (inject_Z 1). rewrite <- inject_Z_plus.
  rewrite <- Zle_Qle. lia.
Qed.

Lemma round_half_even_cases (x : Q) :
  let f := Qfloor x in
  inject_Z f <= x ∧ x < inject_Z f + 1
  ∧ ((x - inject_Z f < 1 # 2 ∧ round_half_even x = f)
     ∨ (1 # 2 < x - inject_Z f ∧ round_half_even x = (f + 1)%Z)
     ∨ (x - inject_Z f == 1 # 2
        ∧ round_half_even x = (if Z.even f then f else f + 1)%Z)).
Proof.
  intros f. unfold round_half_even. fold f.
  pose proof (Qfloor_le x) as Hlo. pose proof (Qlt_floor x) as Hhi.
  rewrite inject_Z_plus in Hhi. change (inject_Z 1) with 1 in Hhi. fold f in Hlo, Hhi.
  split; [done|]. split; [done|].
  destruct (x - inject_Z f ?= 1 # 2) eqn:Hc.
  - right; right. by apply Qeq_alt in Hc.
  - left. by apply Qlt_alt in Hc.
  - right; left. by apply Qgt_alt in Hc.
Qed.

(** Against an even whole number [k], rounding stays at or below [k] up to
    and including the half-way point above it. *)
Lemma round_half_even_le_even (x : Q) (k : Z) :
  Z.even k = true →
  (round_half_even x <= k)%Z ↔ x <= inject_Z k + (1 # 2).
Proof.
  intros Hk.
  destruct (round_half_even_cases x) as (Hlo & Hhi & Hcases). simpl in *.
  set (f := Qfloor x) in *.
  destruct (Z.lt_trichotomy f k) as [Hfk|[Hfk|Hfk]].
  - pose proof (inject_Z_succ_le _ _ Hfk) as Hq.
    split; [intros _; lra|intros _].
    destruct Hcases as [[_ ->]|[[_ ->]|[_ ->]]]; [lia|lia|].
    destruct (Z.even f); lia.
  - clearbody f. subst k.
    destruct Hcases as [[Hlt ->]|[[Hgt ->]|[Heq ->]]].
    + split; [intros _; lra|lia].
    + split; [lia|intros; lra].
    + rewrite Hk. split; [intros _; lra|lia].
  - pose proof (inject_Z_succ_le _ _ Hfk) as Hq.
    split; [|intros; lra].
    destruct Hcases as [[_ ->]|[[_ ->]|[_ ->]]]; [lia|lia|].
    destruct (Z.even f); lia.
Qed.

Lemma round_half_even_Qeq (x y : Q) : x == y → round_half_even x = round_half_even y.
Proof.
  intros Hxy. unfold round_half_even.
  rewrite (Qfloor_comp _ _ Hxy).
  assert (Hc : (x - inject_Z (Qfloor y) ?= 1 # 2) = (y - inject_Z (Qfloor y) ?= 1 # 2))
    by (apply Qcompare_comp; [by rewrite Hxy|done]).
  by rewrite Hc.
Qed.

Lemma round_half_even_mono (x y : Q) :
  x <= y → (round_half_even x <= round_half_even y)%Z.
Proof.
  intros Hxy.
  destruct (Z.le_gt_cases (round_half_even x) (round_half_even y)) as [|Hgt]; [done|].
  destruct (round_half_even_near x) as [Hx _].
  destruct (round_half_even_near y) as [_ Hy].
  pose proof (inject_Z_succ_le _ _ Hgt) as Hq.
  assert (Heq : x == y) by lra.
  rewrite (round_half_even_Qeq _ _ Heq) in Hgt. lia.
Qed.

Lemma round2_mono (x y : Q) : x <= y → round2 x <= round2 y.
Proof.
  intros Hxy. unfold round2, Qle; simpl.
  apply Z.mul_le_mono_nonneg_r; [done|].
  apply round_half_even_mono. lra.
Qed.

Lemma round2_le_whole (x : Q) (t : Z) :
  round2 x <= inject_Z t ↔ x <= inject_Z t + (1 # 200).
Proof.
  assert (Heven : Z.even (t * 100) = true)
    by (rewrite Z.even_mul; apply orb_true_r).
  pose proof (round_half_even_le_even (x * 100) (t * 100) Heven) as H.
  rewrite inject_Z_mult in H. change (inject_Z 100) with 100 in H.
  unfold round2, Qle at 1; simpl. rewrite Z.mul_1_r.
  rewrite H. split; intros; lra.
Qed.

(** Binary64 rounding keeps the order. *)

Lemma pow2_pos e : 0 < 2 ^ e.
Proof. by apply Qpower_0_lt. Qed.

Lemma pow2_le a b : (a <= b)%Z → 2 ^ a <= 2 ^ b.
Proof. intros H. by apply Qpower_le_compat_l. Qed.

Lemma pow2_add a b : 2 ^ (a + b) == 2 ^ a * 2 ^ b.
Proof. by apply Qpower_plus. Qed.

Lemma pow2_Z k : (0 <= k)%Z → 2 ^ k == inject_Z (2 ^ k).
Proof. intros H. symmetry. apply (Zpower_Qpower 2 k H). Qed.

Lemma pow2_quot (k e : Z) : 2 ^ k / 2 ^ e == 2 ^ (k - e).
Proof.
  pose proof (pow2_pos e) as P. pose proof (pow2_add (k - e) e) as E.
  replace (k - e + e)%Z with k in E by lia. rewrite E. field. lra.
Qed.

Lemma log2_bounds (n : Z) :
  (0 < n)%Z → 2 ^ Z.log2 n <= inject_Z n ∧ inject_Z n < 2 ^ (Z.log2 n + 1).
Proof.
  intros Hn. destruct (Z.log2_spec n Hn) as [Hlo Hhi].
  pose proof (Z.log2_nonneg n) as H0.
  rewrite !pow2_Z by lia. rewrite <- Zle_Qle, <- Zlt_Qlt.
  split; [exact Hlo|]. by replace (Z.log2 n + 1)%Z with (Z.succ (Z.log2 n)) by lia.
Qed.

Lemma ilog2_spec (x : Q) :
  0 < x → 2 ^ ilog2 x <= x ∧ x < 2 ^ (ilog2 x + 1).
Proof.
  intros Hx. unfold ilog2.
  destruct x as [n d]. simpl Qnum. simpl Qden.
  assert (Hn : (0 < n)%Z).
  { unfold Qlt in Hx. simpl in Hx. lia. }
  destruct (log2_bounds n Hn) as [Hn1 Hn2].
  destruct (log2_bounds (Z.pos d) eq_refl) as [Hd1 Hd2].
  set (a := Z.log2 n) in *. set (b := Z.log2 (Z.pos d)) in *.
  assert (Hxd : inject_Z n == (n # d) * inject_Z (Z.pos d)).
  { rewrite (Qmake_Qdiv n d). by field. }
  set (x := n # d) in *. set (N := inject_Z n) in *.
  set (D := inject_Z (Z.pos d)) in *.
  assert (HD : 0 < D) by reflexivity.
  assert (Hup : x < 2 ^ (a - b + 1)).
  { pose proof (pow2_add (a - b + 1) b) as E.
    replace (a - b + 1 + b)%Z with (a + 1)%Z in E by lia.
    pose proof (pow2_pos (a - b + 1)) as P1. pose proof (pow2_pos b) as P2.
    generalize dependent (2 ^ (a - b + 1)). generalize dependent (2 ^ b).
    generalize dependent (2 ^ (a + 1)). clearbody x N D. intros. nra. }
  assert (Hlow : 2 ^ (a - b - 1) <= x).
  { pose proof (pow2_add (a - b - 1) (b + 1)) as E.
    replace (a - b - 1 + (b + 1))%Z with a in E by lia.
    pose proof (pow2_pos (a - b - 1)) as P1. pose proof (pow2_pos (b + 1)) as P2.
    generalize dependent (2 ^ (a - b - 1)). generalize dependent (2 ^ (b + 1)).
    generalize dependent (2 ^ a). clearbody x N D. intros. nra. }
  destruct (Qle_bool (2 ^ (a - b)) x) eqn:Hk.
  - apply Qle_bool_iff in Hk. by split.
  - replace (a - b - 1 + 1)%Z with (a - b)%Z by lia. split; [done|].
    apply Qnot_le_lt. intros H%Qle_bool_iff. congruence.
Qed.

Lemma ilog2_mono (x y : Q) : 0 < x → x <= y → (ilog2 x <= ilog2 y)%Z.
Proof.
  intros Hx Hxy.
  destruct (Z.le_gt_cases (ilog2 x) (ilog2 y)) as [|Hgt]; [done|].
  destruct (ilog2_spec x Hx) as [Hx1 _].
  destruct (ilog2_spec y) as [_ Hy2]; [lra|].
  pose proof (pow2_le (ilog2 y + 1) (ilog2 x)) as H. lapply H; [|lia]. lra.
Qed.

Lemma scaled_le (x y : Q) (e : Z) : x <= y → x / 2 ^ e <= y / 2 ^ e.
Proof.
  intros H. pose proof (pow2_pos e) as P.
  unfold Qdiv. apply Qmult_le_compat_r; [exact H|].
  by apply Qlt_le_weak, Qinv_lt_0_compat.
Qed.

Lemma binary64_positive_nonneg (x : Q) : 0 <= x → 0 <= binary64_positive x.
Proof.
  intros Hx. unfold binary64_positive.
  set (e := Z.max (ilog2 x - 52) (-1074)).
  pose proof (pow2_pos e) as P.
  assert (H0 : (0 <= round_half_even (x / 2 ^ e))%Z).
  { change 0%Z with (round_half_even 0). apply round_half_even_mono.
    unfold Qdiv. apply Qmult_le_0_compat; [done|].
    by apply Qlt_le_weak, Qinv_lt_0_compat. }
  apply Qmult_le_0_compat; [|lra].
  change 0 with (inject_Z 0). by rewrite <- Zle_Qle.
Qed.

Lemma binary64_positive_le_pow2 (x : Q) (k : Z) :
  0 < x → (Z.max (ilog2 x - 52) (-1074) <= k)%Z → x <= 2 ^ k →
  binary64_positive x <= 2 ^ k.
Proof.
  intros Hx Hk Hxk. unfold binary64_positive.
  set (e := Z.max (ilog2 x - 52) (-1074)) in *.
  pose proof (pow2_pos e) as P.
  assert (Hr : (round_half_even (x / 2 ^ e) <= 2 ^ (k - e))%Z).
  { rewrite <- (round_half_even_inject_Z (2 ^ (k - e)) (2 ^ k / 2 ^ e)).
    - apply round_half_even_mono. by apply scaled_le.
    - rewrite pow2_quot. apply pow2_Z. lia. }
  rewrite Zle_Qle in Hr. rewrite <- pow2_Z in Hr by lia.
  pose proof (pow2_add (k - e) e) as E.
  replace (k - e + e)%Z with k in E by lia. rewrite E.
  apply Qmult_le_compat_r; [exact Hr|lra].
Qed.

Lemma binary64_positive_ge_pow2 (y : Q) (k : Z) :
  0 < y → (Z.max (ilog2 y - 52) (-1074) <= k)%Z → 2 ^ k <= y →
  2 ^ k <= binary64_positive y.
Proof.
  intros Hy Hk Hky. unfold binary64_positive.
  set (e := Z.max (ilog2 y - 52) (-1074)) in *.
  pose proof (pow2_pos e) as P.
  assert (Hr : (2 ^ (k - e) <= round_half_even (y / 2 ^ e))%Z).
  { rewrite <- (round_half_even_inject_Z (2 ^ (k - e)) (2 ^ k / 2 ^ e)).
    - apply round_half_even_mono. by apply scaled_le.
    - rewrite pow2_quot. apply pow2_Z. lia. }
  rewrite Zle_Qle in Hr. rewrite <- pow2_Z in Hr by lia.
  pose proof (pow2_add (k - e) e) as E.
  replace (k - e + e)%Z with k in E by lia. rewrite E.
  apply Qmult_le_compat_r; [exact Hr|lra].
Qed.

Lemma binary64_positive_mono (x y : Q) :
  0 < x → x <= y → binary64_positive x <= binary64_positive y.
Proof.
  intros Hx Hxy.
  assert (Hy : 0 < y) by lra.
  pose proof (ilog2_mono x y Hx Hxy) as Hlog.
  destruct (Z.eq_dec (Z.max (ilog2 x - 52) (-1074)) (Z.max (ilog2 y - 52) (-1074)))
    as [He|Hne].
  - unfold binary64_positive. rewrite He.
    set (e := Z.max (ilog2 y - 52) (-1074)).
    pose proof (pow2_pos e) as P.
    apply Qmult_le_compat_r; [|lra].
    rewrite <- Zle_Qle. apply round_half_even_mono. by apply scaled_le.
  - set (k := ilog2 y).
    assert (Hlt : (ilog2 x + 1 <= k)%Z) by (subst k; lia).
    destruct (ilog2_spec x Hx) as [_ Hx2]. destruct (ilog2_spec y Hy) as [Hy1 _].
    pose proof (pow2_le _ _ Hlt) as Hp.
    apply (Qle_trans _ (2 ^ k)).
    + apply binary64_positive_le_pow2; [done|lia|lra].
    + apply binary64_positive_ge_pow2; [done|subst k; lia|done].
Qed.

(** The rounded value lies on the grid of its binade and within half a
    step of [x]; above the subnormal range the step is at most 2^-52 times
    [x]. *)
Lemma binary64_positive_near (x : Q) :
  0 < x →
  let e := Z.max (ilog2 x - 52) (-1074) in
  (∃ m : Z, binary64_positive x = inject_Z m * 2 ^ e)
  ∧ Qabs (binary64_positive x - x) <= 2 ^ e * (1 # 2)
  ∧ ((-1022 <= ilog2 x)%Z → 2 ^ e <= x * 2 ^ (-52)).
Proof.
  intros Hx e. unfold binary64_positive. fold e.
  pose proof (pow2_pos e) as P. split_and!.
  - by eexists.
  - destruct (round_half_even_near (x / 2 ^ e)) as [Hlo Hhi].
    set (m := inject_Z (round_half_even (x / 2 ^ e))) in *. clearbody m.
    assert (Hx' : x == x / 2 ^ e * 2 ^ e) by (field; lra).
    set (y := x / 2 ^ e) in *. clearbody y.
    apply Qabs_Qle_condition. generalize dependent (2 ^ e). intros p P Hx'.
    split; nra.
  - intros Hnormal. subst e. rewrite Z.max_l by lia.
    destruct (ilog2_spec x Hx) as [Hlo _].
    pose proof (pow2_add (ilog2 x) (-52)) as E.
    replace (ilog2 x + -52)%Z with (ilog2 x - 52)%Z in E by lia. rewrite E.
    apply Qmult_le_compat_r; [done|]. apply Qlt_le_weak, pow2_pos.
Qed.

Lemma binary64_nonneg (x : Q) : 0 <= x → 0 <= binary64 x.
Proof.
  intros Hx. unfold binary64. destruct (Qcompare_spec x 0) as [H|H|H].
  - lra.
  - lra.
  - by apply binary64_positive_nonneg.
Qed.

Lemma binary64_mono (x y : Q) : x <= y → binary64 x <= binary64 y.
Proof.
  intros Hxy. unfold binary64.
  destruct (Qcompare_spec x 0) as [Hx|Hx|Hx];
    destruct (Qcompare_spec y 0) as [Hy|Hy|Hy]; try lra.
  - apply binary64_positive_nonneg. lra.
  - pose proof (binary64_positive_nonneg (- x)). lra.
  - pose proof (binary64_positive_mono (- y) (- x)). lra.
  - pose proof (binary64_positive_nonneg (- x)).
    pose proof (binary64_positive_nonneg y). lra.
  - apply binary64_positive_mono; lra.
Qed.
End rounding_order.

(** X3. The comparison with the timeout is made on the rounded time, so
    the cut between UP and TIMEOUT lies five thousandths of a second above
    the timeout: an answered call is UP exactly when the span
    [time.time() - start], as the float subtraction gives it, is at most
    timeout + 0.005 s, and TIMEOUT exactly when it is larger. *)
Theorem up_iff_within_rounded_budget (u : string) (timeout status_code : Z)
    (x : exchange) :
  outcome x = Response status_code →
  ∃ r : EndpointResult,
    check_endpoint u timeout x = Return r
    ∧ (result r = "UP" ↔ (span x <= inject_Z timeout + (1 # 200))%Q)
    ∧ (result r = "TIMEOUT" ↔ (inject_Z timeout + (1 # 200) < span x)%Q).
Proof.
  intros Hx. eexists. split; [exact (check_endpoint_Response _ _ _ _ Hx)|].
  simpl.
  pose proof (round2_le_whole (span x) timeout) as Hcut.
  destruct (Qle_bool _ _) eqn:Hle.
  - apply Qle_bool_iff, Hcut in Hle. split; split; try done.
    intros H. by apply Qlt_not_le in H.
  - assert (Hlate : ¬ (span x <= inject_Z timeout + (1 # 200))%Q).
    { intros H%Hcut%Qle_bool_iff. congruence. }
    split; split; try done. intros _. by apply Qnot_le_lt.
Qed.

Lemma up_iff_within_rounded_budget_witness :
  ∃ r : EndpointResult,
    check_endpoint "http://ok.example/" 2 (Sample.answer 200 (3 # 1000) (2008 # 1000))
      = Return r
    ∧ (result r = "UP"
       ↔ (span (Sample.answer 200 (3 # 1000) (2008 # 1000))
          <= inject_Z 2 + (1 # 200))%Q)
    ∧ (result r = "TIMEOUT"
       ↔ (inject_Z 2 + (1 # 200)
          < span (Sample.answer 200 (3 # 1000) (2008 # 1000)))%Q).
Proof.
  exact (up_iff_within_rounded_budget "http://ok.example/" 2 200
           (Sample.answer 200 (3 # 1000) (2008 # 1000)) eq_refl).
Defined.

(** X4. Of two answered calls checked against the same timeout, the one
    with the longer measured span never reports the smaller time, and if
    the shorter one is already TIMEOUT so is the longer one. *)
Theorem longer_span_never_looks_better (u1 u2 : string) (timeout c1 c2 : Z)
    (x1 x2 : exchange) :
  outcome x1 = Response c1 →
  outcome x2 = Response c2 →
  (measured x1 <= measured x2)%Q →
  ∃ (r1 r2 : EndpointResult) (t1 t2 : Q),
    check_endpoint u1 timeout x1 = Return r1
    ∧ check_endpoint u2 timeout x2 = Return r2
    ∧ time r1 = Some t1 ∧ time r2 = Some t2
    ∧ (t1 <= t2)%Q
    ∧ (result r1 = "TIMEOUT" → result r2 = "TIMEOUT").
Proof.
  intros H1 H2 Hle.
  assert (Hmono : (round2 (span x1) <= round2 (span x2))%Q)
    by (by apply round2_mono, binary64_mono).
  eexists _, _, (round2 (span x1)), (round2 (span x2)).
  split; [exact (check_endpoint_Response _ _ _ _ H1)|].
  split; [exact (check_endpoint_Response _ _ _ _ H2)|].
  simpl. split_and!; try done.
  destruct (Qle_bool (round2 (span x2)) _) eqn:Hb2; [|done].
  apply Qle_bool_iff in Hb2.
  assert (Hb1 : Qle_bool (round2 (span x1)) (inject_Z timeout) = true)
    by (apply Qle_bool_iff; by apply (Qle_trans _ (round2 (span x2)))).
  by rewrite Hb1.
Qed.

Lemma longer_span_never_looks_better_witness :
  ∃ (r1 r2 : EndpointResult) (t1 t2 : Q),
    check_endpoint "http://ok.example/" 2 (Sample.answer 200 0 (2006 # 1000)) = Return r1
    ∧ check_endpoint "http://slow.example/" 2 Sample.late = Return r2
    ∧ time r1 = Some t1 ∧ time r2 = Some t2
    ∧ (t1 <= t2)%Q
    ∧ (result r1 = "TIMEOUT" → result r2 = "TIMEOUT").
Proof.
  apply (longer_span_never_looks_better "http://ok.example/" "http://slow.example/"
           2 200 200 (Sample.answer 200 0 (2006 # 1000)) Sample.late);
    [reflexivity | reflexivity | by vm_compute].
Defined.

(** X5. When the clock has not gone backwards between the two readings,
    the reported time is not negative. *)
Theorem reported_time_not_negative (u : string) (timeout status_code : Z)
    (x : exchange) :
  outcome x = Response status_code →
  (clock_before x <= clock_after x)%Q →
  ∃ (r : EndpointResult) (elapsed : Q),
    check_endpoint u timeout x = Return r
    ∧ time r = Some elapsed ∧ (0 <= elapsed)%Q.
Proof.
  intros Hx Hclock.
  eexists _, (round2 (span x)).
  split; [exact (check_endpoint_Response _ _ _ _ Hx)|]. split; [done|].
  apply (Qle_trans _ (round2 0)); [by vm_compute|].
  apply round2_mono, binary64_nonneg. lra.
Qed.

Lemma reported_time_not_negative_witness :
  ∃ (r : EndpointResult) (elapsed : Q),
    check_endpoint "http://ok.example/" 2 Sample.late = Return r
    ∧ time r = Some elapsed ∧ (0 <= elapsed)%Q.
Proof.
  apply (reported_time_not_negative "http://ok.example/" 2 200 Sample.late);
    [reflexivity | by vm_compute].
Defined.

(** ** Reading the URL file, continued *)

Lemma blank_cons c s : blank (String c s) = is_space c && blank s.
Proof. unfold blank. simpl. by destruct (is_space c). Qed.

Lemma append_cons c a b : String c a +:+ b = String c (a +:+ b).
Proof. reflexivity. Qed.

Lemma lstrip_split s : ∃ pre, s = pre +:+ lstrip s ∧ blank pre = true.
Proof.
  induction s as [|c s (pre & Hs & Hpre)]; simpl.
  - by exists "".
  - destruct (is_space c) eqn:Hc.
    + exists (String c pre). rewrite append_cons, <- Hs.
      by rewrite blank_cons, Hc, Hpre.
    + by exists "".
Qed.

Lemma lstrip_first s c : first_char (lstrip s) = Some c → is_space c = false.
Proof.
  induction s as [|d s IH]; simpl; [done|].
  destruct (is_space d) eqn:Hd; [done|]. simpl. by intros [= <-].
Qed.

Lemma lstrip_blank_app pre s : blank pre = true → lstrip (pre +:+ s) = lstrip s.
Proof.
  induction pre as [|c pre IH]; [done|].
  rewrite blank_cons, append_cons. simpl.
  intros [-> Hpre]%andb_true_iff. by apply IH.
Qed.

Lemma lstrip_fixed s :
  (∀ c, first_char s = Some c → is_space c = false) → lstrip s = s.
Proof. destruct s as [|c s]; simpl; [done|]. intros H. by rewrite (H c). Qed.

Lemma rstrip_split s : ∃ post, s = rstrip s +:+ post ∧ blank post = true.
Proof.
  induction s as [|c s (post & Hs & Hpost)]; simpl.
  - by exists "".
  - destruct (rstrip s) as [|d r'] eqn:Hr.
    + change ("" +:+ post) with post in Hs. subst post.
      destruct (is_space c) eqn:Hc.
      * exists (String c s). split; [done|]. by rewrite blank_cons, Hc, Hpost.
      * exists s. by rewrite append_cons.
    + exists post. split; [|done]. by rewrite append_cons, <- Hs.
Qed.

Lemma rstrip_last s c : last_char (rstrip s) = Some c → is_space c = false.
Proof.
  induction s as [|d s IH]; simpl; [done|].
  destruct (rstrip s) as [|d' r'] eqn:Hr.
  - destruct (is_space d) eqn:Hd; [done|]. simpl. by intros [= <-].
  - simpl in *. exact IH.
Qed.

Lemma rstrip_first s c : first_char (rstrip s) = Some c → first_char s = Some c.
Proof.
  destruct s as [|d s]; simpl; [done|].
  destruct (rstrip s); [|done]. by destruct (is_space d).
Qed.

Lemma rstrip_idem s : rstrip (rstrip s) = rstrip s.
Proof.
  induction s as [|c s IH]; simpl; [done|].
  destruct (rstrip s) as [|d r'] eqn:Hr.
  - destruct (is_space c) eqn:Hc; simpl; [done|]. by rewrite Hc.
  - simpl in *. by rewrite IH.
Qed.

Lemma rstrip_keeps_head c s :
  is_space c = false → ∃ r', rstrip (String c s) = String c r'.
Proof. intros Hc. simpl. destruct (rstrip s); [rewrite Hc|]; eauto. Qed.

Lemma strip_first s c : first_char (strip s) = Some c → is_space c = false.
Proof. intros H%rstrip_first. by eapply lstrip_first. Qed.

Lemma strip_idem s : strip (strip s) = strip s.
Proof.
  unfold strip at 1. rewrite (lstrip_fixed (strip s)) by apply strip_first.
  unfold strip. apply rstrip_idem.
Qed.

(** X6. [strip] takes away white space at the two ends and nothing else:
    the line is some white space, then the stripped text, then some white
    space, and the stripped text neither starts nor ends with a white
    space character. *)
Theorem strip_takes_only_outer_space (s : string) :
  ∃ pre post : string,
    s = pre +:+ strip s +:+ post
    ∧ blank pre = true ∧ blank post = true
    ∧ (∀ c, first_char (strip s) = Some c → is_space c = false)
    ∧ (∀ c, last_char (strip s) = Some c → is_space c = false).
Proof.
  destruct (lstrip_split s) as (pre & Hs & Hpre).
  destruct (rstrip_split (lstrip s)) as (post & Hl & Hpost).
  exists pre, post. split_and!; try done.
  - unfold strip. by rewrite <- Hl.
  - apply strip_first.
  - intros c. apply rstrip_last.
Qed.

Lemma is_comment_first u :
  is_comment u = false → first_char u ≠ Some (Ascii.ascii_of_N 35).
Proof.
  destruct u as [|c u]; simpl; [done|].
  intros Hc [= ->]. done.
Qed.

Lemma first_is_comment u :
  first_char u ≠ Some (Ascii.ascii_of_N 35) → is_comment u = false.
Proof.
  destruct u as [|c u]; simpl; [done|].
  intros Hc. destruct (N.eqb_spec (N_of_ascii c) 35) as [Heq|]; [|done].
  destruct Hc. by rewrite <- (ascii_N_embedding c), Heq.
Qed.

Lemma read_urls_elem lines u :
  u ∈ read_urls lines ↔
  ∃ line, line ∈ lines ∧ u = strip line ∧ u ≠ ""
          ∧ first_char u ≠ Some (Ascii.ascii_of_N 35).
Proof.
  unfold read_urls. rewrite list_elem_of_fmap. split.
  - intros (line & -> & [Hkeep Hin]%list_elem_of_filter).
    apply andb_true_iff in Hkeep as [Ht Hc]. apply negb_true_iff in Hc.
    exists line. split_and!; try done.
    + by destruct (strip line).
    + by apply is_comment_first.
  - intros (line & Hin & -> & Hne & Hc). exists line. split; [done|].
    apply list_elem_of_filter. split; [|done].
    apply andb_true_iff. split.
    + by destruct (strip line).
    + apply negb_true_iff. by apply first_is_comment.
Qed.

Lemma read_urls_clean (l : list string) :
  Forall clean_url l → read_urls l = l.
Proof.
  unfold read_urls. induction 1 as [|u l (Hne & Hc & Hs) _ IH]; [done|].
  rewrite filter_cons_True.
  - rewrite fmap_cons, IH. by rewrite Hs.
  - rewrite Hs. apply andb_true_iff. split.
    + by destruct u.
    + apply negb_true_iff. by apply first_is_comment.
Qed.

Lemma lstrip_blank s : blank s = true → lstrip s = "".
Proof.
  induction s as [|c s IH]; simpl; [done|].
  rewrite blank_cons. intros [-> Hs]%andb_true_iff. by apply IH.
Qed.

Lemma read_urls_one line :
  read_urls [line] =
    if truthy (strip line) && negb (is_comment (strip line))
    then [strip line] else [].
Proof.
  unfold read_urls.
  destruct (truthy (strip line) && negb (is_comment (strip line))) eqn:Hk.
  - by rewrite filter_cons_True.
  - rewrite filter_cons_False; [done|]. by rewrite Hk.
Qed.

(** X7. Every URL that [read_urls] hands over is the stripped text of one
    of the lines, is not empty, does not start with the comment sign, and
    has no white space left at either end. *)
Theorem read_urls_yields_clean_urls (lines : list string) (u : string) :
  u ∈ read_urls lines →
  (∃ line, line ∈ lines ∧ u = strip line)
  ∧ u ≠ ""
  ∧ first_char u ≠ Some (Ascii.ascii_of_N 35)
  ∧ strip u = u
  ∧ (∀ c, first_char u = Some c → is_space c = false)
  ∧ (∀ c, last_char u = Some c → is_space c = false).
Proof.
  intros (line & Hin & -> & Hne & Hc)%read_urls_elem.
  split_and!; try done.
  - eauto.
  - apply strip_idem.
  - apply strip_first.
  - intros c. apply rstrip_last.
Qed.

Lemma read_urls_yields_clean_urls_witness :
  "http://slow.example/" ∈ read_urls Sample.url_file
  ∧ (∃ line, line ∈ Sample.url_file ∧ "http://slow.example/" = strip line)
  ∧ "http://slow.example/" ≠ ""
  ∧ first_char "http://slow.example/" ≠ Some (Ascii.ascii_of_N 35)
  ∧ strip "http://slow.example/" = "http://slow.example/"
  ∧ (∀ c, first_char "http://slow.example/" = Some c → is_space c = false)
  ∧ (∀ c, last_char "http://slow.example/" = Some c → is_space c = false).
Proof.
  assert (Hin : "http://slow.example/" ∈ read_urls Sample.url_file).
  { vm_compute. apply list_elem_of_further, list_elem_of_here. }
  split; [exact Hin|].
  exact (read_urls_yields_clean_urls Sample.url_file "http://slow.example/" Hin).
Defined.

(** X8. Reading is stable: a list of URLs that came out of [read_urls],
    written back one per line, reads as itself; so does any list of clean
    URLs. *)
Theorem read_urls_fixed_point (lines : list string) :
  read_urls (read_urls lines) = read_urls lines
  ∧ ∀ urls : list string, Forall clean_url urls → read_urls urls = urls.
Proof.
  split; [|apply read_urls_clean].
  apply read_urls_clean, Forall_forall. intros u Hu.
  apply read_urls_elem in Hu as (line & _ & -> & Hne & Hc).
  split_and!; [done..|]. apply strip_idem.
Qed.

(** X9. What becomes of a line is settled by its first visible character.
    A line of white space only is dropped. A line is a comment when that
    character is the comment sign; otherwise it is kept from that
    character on, trailing white space removed, with any later comment
    sign still in it. *)
Theorem line_settled_by_first_visible_char (pre rest : string) (c : ascii) :
  blank pre = true →
  is_space c = false →
  read_urls [pre] = []
  ∧ read_urls [pre +:+ String c rest] =
      if (Ascii.N_of_ascii c =? 35)%N then []
      else [rstrip (String c rest)].
Proof.
  intros Hpre Hc. rewrite !read_urls_one. unfold strip.
  rewrite (lstrip_blank _ Hpre). split; [done|].
  rewrite (lstrip_blank_app _ _ Hpre). simpl lstrip. rewrite Hc.
  destruct (rstrip_keeps_head c rest Hc) as [r' ->]. simpl.
  by destruct (N_of_ascii c =? 35)%N.
Qed.

Lemma line_settled_by_first_visible_char_witness :
  blank "  " = true
  ∧ is_space (Ascii.ascii_of_N 104) = false
  ∧ read_urls ["  "] = []
  ∧ read_urls ["  " +:+ String (Ascii.ascii_of_N 104) "ttp://ok.example/#top  "] =
      if (Ascii.N_of_ascii (Ascii.ascii_of_N 104) =? 35)%N then []
      else [rstrip (String (Ascii.ascii_of_N 104) "ttp://ok.example/#top  ")].
Proof.
  split; [reflexivity|]. split; [reflexivity|].
  exact (line_settled_by_first_visible_char "  " "ttp://ok.example/#top  "
           (Ascii.ascii_of_N 104) eq_refl eq_refl).
Defined.


(** ** The handler, continued *)

Lemma collect_Raise_inv {A} (results : list A) (futures : list (py A)) e :
  collect results futures = Raise e → Raise e ∈ futures.
Proof.
  revert results. induction futures as [|f futures IH]; intros results; simpl.
  - done.
  - destruct f as [r|e']; simpl.
    + intros H%IH. by right.
    + intros [= ->]. left.
Qed.

Lemma omap_returned {A} (rs : list A) : omap returned (Return <$> rs) = rs.
Proof. induction rs as [|r rs IH]; simpl; [done|]. f_equal. exact IH. Qed.

Lemma Return_Permutation_inv {A} (rs rs' : list A) :
  Return <$> rs ≡ₚ Return <$> rs' → rs ≡ₚ rs'.
Proof.
  intros H. rewrite <- (omap_returned rs), <- (omap_returned rs').
  by rewrite H.
Qed.

Lemma Return_fmap_inj {A} (rs rs' : list A) :
  Return <$> rs = Return <$> rs' → rs = rs'.
Proof.
  intros H. rewrite <- (omap_returned rs), <- (omap_returned rs').
  by rewrite H.
Qed.

Lemma submit_all_elem cfg w urls (m : py EndpointResult) :
  m ∈ submit_all cfg w urls ↔
  ∃ i u, urls !! i = Some u ∧ m = check_endpoint u (TIMEOUT cfg) (http w i u).
Proof.
  unfold submit_all. rewrite elem_of_lookup_imap. split.
  - intros (i & u & -> & Hi). eauto.
  - intros (i & u & Hi & ->). eauto.
Qed.

Lemma check_endpoints_elem cfg w rs r :
  response (check_endpoints cfg w) = Return rs →
  r ∈ rs →
  (fs w !! URL_FILE cfg = None ∧ rs = [not_found] ∧ r = not_found)
  ∨ ∃ lines i u,
      fs w !! URL_FILE cfg = Some (RegularFile lines)
      ∧ read_urls lines !! i = Some u
      ∧ check_endpoint u (TIMEOUT cfg) (http w i u) = Return r.
Proof.
  intros [[Hf ->] | (lines & Hf & _ & Hperm)]%check_endpoints_inv Hin.
  - left. by apply list_elem_of_singleton in Hin as ->.
  - right. assert (Hfut : Return r ∈ submit_all cfg w (read_urls lines)).
    { rewrite <- Hperm. by apply list_elem_of_fmap_2. }
    apply submit_all_elem in Hfut as (i & u & Hi & Hr). by exists lines, i, u.
Qed.

Lemma check_endpoints_Raise_inv cfg w e :
  response (check_endpoints cfg w) = Raise e →
  (fs w !! URL_FILE cfg = Some Directory ∧ e = IsADirectoryError)
  ∨ (∃ class_name, fs w !! URL_FILE cfg = Some (Unreadable class_name)
       ∧ e = PyExc class_name ForeignFamily)
  ∨ (∃ lines, fs w !! URL_FILE cfg = Some (RegularFile lines)
       ∧ MAX_WORKERS cfg ≤ 0 ∧ e = ValueError)
  ∨ ∃ lines i u,
      fs w !! URL_FILE cfg = Some (RegularFile lines)
      ∧ 1 ≤ MAX_WORKERS cfg
      ∧ read_urls lines !! i = Some u
      ∧ check_endpoint u (TIMEOUT cfg) (http w i u) = Raise e.
Proof.
  destruct (fs w !! URL_FILE cfg) as [[lines| |class_name]|] eqn:Hf.
  - destruct (Z.leb_spec (MAX_WORKERS cfg) 0) as [Hw|Hw].
    + unfold check_endpoints, open_lines, ThreadPoolExecutor.
      rewrite (path_exists_Some _ _ _ Hf), Hf; simpl.
      destruct (Z.leb_spec (MAX_WORKERS cfg) 0); [|lia].
      intros [= <-]. right; right; left. eauto.
    + rewrite (check_endpoints_available _ _ _ Hf) by lia; simpl.
      intros He%collect_Raise_inv.
      rewrite as_completed_Permutation in He.
      apply submit_all_elem in He as (i & u & Hi & He).
      do 3 right. exists lines, i, u. split_and!; [done|lia|done|done].
  - unfold check_endpoints, open_lines.
    rewrite (path_exists_Some _ _ _ Hf), Hf. simpl. intros [= <-]. by left.
  - unfold check_endpoints, open_lines.
    rewrite (path_exists_Some _ _ _ Hf), Hf. simpl. intros [= <-].
    right; left. eauto.
  - by rewrite (check_endpoints_missing _ _ Hf).
Qed.

Lemma check_endpoint_Raise_inv u timeout x e :
  check_endpoint u timeout x = Raise e →
  outcome x = Fails e ∧ isinstance_RequestException e = false.
Proof.
  destruct (outcome x) as [c|e'] eqn:Hx.
  - by rewrite (check_endpoint_Response _ _ _ _ Hx).
  - rewrite (check_endpoint_Fails _ _ _ _ Hx).
    unfold isinstance_Timeout, isinstance_RequestException.
    destruct e' as [name []]; simpl; try done. by intros [= <-].
Qed.

Lemma returns_collect {A} (results : list A) (futures : list (py A)) :
  returns (collect results futures) = true
  ↔ Forall (λ m, returns m = true) futures.
Proof.
  revert results. induction futures as [|f futures IH]; intros results; simpl.
  - split; [constructor|done].
  - destruct f as [r|e]; simpl.
    + rewrite IH. split; [by constructor|by inversion 1].
    + split; [done|by inversion 1].
Qed.

Lemma returns_collect_Permutation {A} (futures futures' : list (py A)) :
  futures ≡ₚ futures' →
  returns (collect [] futures) = returns (collect [] futures').
Proof.
  intros Hperm.
  destruct (returns (collect [] futures)) eqn:H1;
    destruct (returns (collect [] futures')) eqn:H2; try done.
  - apply returns_collect in H1. rewrite Hperm in H1.
    apply (returns_collect []) in H1. congruence.
  - apply returns_collect in H2. rewrite <- Hperm in H2.
    apply (returns_collect []) in H2. congruence.
Qed.

(** X10. The handler returns a list in two situations only: the URL file
    is missing; or it opens and reads as text, the pool has at least one
    worker, and every exchange ends with a response or a request failure.
    In every other situation -- a directory under that name, a file that
    cannot be opened or decoded, a pool size of zero or less, one exchange
    ending in a foreign exception -- it raises. *)
Theorem check_endpoints_returns_iff (cfg : settings) (w : world) :
  (∃ rs, response (check_endpoints cfg w) = Return rs)
  ↔ fs w !! URL_FILE cfg = None
    ∨ ∃ lines,
        fs w !! URL_FILE cfg = Some (RegularFile lines)
        ∧ 1 ≤ MAX_WORKERS cfg
        ∧ ∀ i u, read_urls lines !! i = Some u → handled (http w i u) = true.
Proof.
  split.
  - intros [rs [[Hf _] | (lines & Hf & Hw & Hperm)]%check_endpoints_inv];
      [by left|right].
    exists lines. split_and!; [done..|]. intros i u Hi.
    assert (Hfut : check_endpoint u (TIMEOUT cfg) (http w i u)
                   ∈ submit_all cfg w (read_urls lines))
      by (apply submit_all_elem; eauto).
    rewrite <- Hperm in Hfut.
    apply list_elem_of_fmap in Hfut as (r & Hr & _).
    destruct (handled (http w i u)) eqn:Hh; [done|].
    apply (check_endpoint_unhandled u (TIMEOUT cfg)) in Hh.
    by rewrite Hr in Hh.
  - intros [Hf | (lines & Hf & Hw & Hall)].
    + rewrite (check_endpoints_missing _ _ Hf). eauto.
    + destruct (handled_batch cfg w lines Hf Hw Hall) as (rs0 & _ & _ & ->).
      eauto.
Qed.

(** X11. Whatever the handler raises has one of four causes, and is never
    a request failure: the URL file is a directory; the file cannot be
    opened or read as text (the exception of [open] or of the iteration);
    the pool size is zero or less ([ValueError], before any request); or
    it is the exception that [requests.get] raised for one of the listed
    URLs, from outside the [RequestException] hierarchy. *)
Theorem check_endpoints_raises_traced (cfg : settings) (w : world)
    (e : py_exception) :
  response (check_endpoints cfg w) = Raise e →
  isinstance_RequestException e = false
  ∧ ((fs w !! URL_FILE cfg = Some Directory ∧ e = IsADirectoryError
      ∧ requested (check_endpoints cfg w) = [])
     ∨ (∃ class_name,
          fs w !! URL_FILE cfg = Some (Unreadable class_name)
          ∧ exc_class_name e = class_name
          ∧ requested (check_endpoints cfg w) = [])
     ∨ (∃ lines,
          fs w !! URL_FILE cfg = Some (RegularFile lines)
          ∧ MAX_WORKERS cfg ≤ 0 ∧ e = ValueError
          ∧ requested (check_endpoints cfg w) = [])
     ∨ ∃ lines i u,
         fs w !! URL_FILE cfg = Some (RegularFile lines)
         ∧ 1 ≤ MAX_WORKERS cfg
         ∧ read_urls lines !! i = Some u
         ∧ outcome (http w i u) = Fails e).
Proof.
  intros He.
  pose proof (check_endpoints_Raise_inv _ _ _ He)
    as [[Hf ->] | [(class_name & Hf & ->)
        | [(lines & Hf & Hw & ->) | (lines & i & u & Hf & Hw & Hi & Hr)]]].
  - split; [done|]. left. split_and!; [done..|].
    unfold check_endpoints, open_lines.
    by rewrite (path_exists_Some _ _ _ Hf), Hf.
  - split; [done|]. right; left. exists class_name. split_and!; [done..|].
    unfold check_endpoints, open_lines.
    by rewrite (path_exists_Some _ _ _ Hf), Hf.
  - split; [done|]. right; right; left. exists lines. split_and!; [done..|].
    unfold check_endpoints, open_lines, ThreadPoolExecutor.
    rewrite (path_exists_Some _ _ _ Hf), Hf; simpl.
    by destruct (Z.leb_spec (MAX_WORKERS cfg) 0); [|lia].
  - apply check_endpoint_Raise_inv in Hr as [Hx Hfor].
    split; [done|]. do 3 right. by exists lines, i, u.
Qed.

Lemma check_endpoints_raises_traced_witness :
  response (check_endpoints Sample.cfg Sample.garbled)
    = Raise (PyExc "UnicodeDecodeError" ForeignFamily)
  ∧ isinstance_RequestException (PyExc "UnicodeDecodeError" ForeignFamily) = false
  ∧ ((fs Sample.garbled !! URL_FILE Sample.cfg = Some Directory
      ∧ PyExc "UnicodeDecodeError" ForeignFamily = IsADirectoryError
      ∧ requested (check_endpoints Sample.cfg Sample.garbled) = [])
     ∨ (∃ class_name,
          fs Sample.garbled !! URL_FILE Sample.cfg = Some (Unreadable class_name)
          ∧ exc_class_name (PyExc "UnicodeDecodeError" ForeignFamily) = class_name
          ∧ requested (check_endpoints Sample.cfg Sample.garbled) = [])
     ∨ (∃ lines,
          fs Sample.garbled !! URL_FILE Sample.cfg = Some (RegularFile lines)
          ∧ MAX_WORKERS Sample.cfg ≤ 0
          ∧ PyExc "UnicodeDecodeError" ForeignFamily = ValueError
          ∧ requested (check_endpoints Sample.cfg Sample.garbled) = [])
     ∨ ∃ lines i u,
         fs Sample.garbled !! URL_FILE Sample.cfg = Some (RegularFile lines)
         ∧ 1 ≤ MAX_WORKERS Sample.cfg
         ∧ read_urls lines !! i = Some u
         ∧ outcome (http Sample.garbled i u)
           = Fails (PyExc "UnicodeDecodeError" ForeignFamily)).
Proof.
  split; [reflexivity|].
  exact (check_endpoints_raises_traced Sample.cfg Sample.garbled
           (PyExc "UnicodeDecodeError" ForeignFamily) eq_refl).
Defined.

Lemma check_endpoint_result_text u timeout x r :
  check_endpoint u timeout x = Return r →
  result r = "UP" ∨ result r = "TIMEOUT"
  ∨ ∃ e, outcome x = Fails e
         ∧ result r = String (Ascii.ascii_of_N 68) ("OWN (" +:+ exc_class_name e +:+ ")").
Proof.
  intros [(c & _ & _ & _ & ->) | (e & Hx & _ & _ & ->)]%check_endpoint_result_cases.
  - destruct (Qle_bool _ _); auto.
  - destruct (isinstance_Timeout e); [auto|]. right; right. by exists e.
Qed.

(** X12. The text "ERROR: URL file not found" is never the verdict on a
    URL: a returned list that holds a result with that text is the
    one-element list for a missing URL file. *)
Theorem error_result_means_missing_file (cfg : settings) (w : world)
    (rs : list EndpointResult) (r : EndpointResult) :
  response (check_endpoints cfg w) = Return rs →
  r ∈ rs →
  result r = "ERROR: URL file not found" →
  fs w !! URL_FILE cfg = None
  ∧ rs = [ {| url := "N/A"; result := "ERROR: URL file not found";
              status := None; time := None |} ].
Proof.
  intros Hrs Hin Herr.
  destruct (check_endpoints_elem _ _ _ _ Hrs Hin)
    as [(Hf & -> & _) | (lines & i & u & _ & _ & Hr)]; [done|].
  apply check_endpoint_result_text in Hr as [Hr | [Hr | (e & _ & Hr)]];
    rewrite Hr in Herr; discriminate.
Qed.

Lemma error_result_means_missing_file_witness :
  fs Sample.no_file !! URL_FILE Sample.cfg = None
  ∧ [not_found] = [ {| url := "N/A"; result := "ERROR: URL file not found";
                       status := None; time := None |} ].
Proof.
  apply (error_result_means_missing_file Sample.cfg Sample.no_file
           [not_found] not_found); [reflexivity | left | reflexivity].
Defined.

(** X13. The verdicts are four texts and no other: every result handed
    out reads UP, TIMEOUT, DOWN followed by a class name in parentheses,
    or the error text for the missing file. *)
Theorem result_vocabulary (r : EndpointResult) :
  produced r →
  result r = "UP" ∨ result r = "TIMEOUT"
  ∨ result r = "ERROR: URL file not found"
  ∨ ∃ class_name : string, result r = "DOWN (" +:+ class_name +:+ ")".
Proof.
  assert (Hone : ∀ u timeout x, check_endpoint u timeout x = Return r →
    result r = "UP" ∨ result r = "TIMEOUT"
    ∨ result r = "ERROR: URL file not found"
    ∨ ∃ class_name : string, result r = "DOWN (" +:+ class_name +:+ ")").
  { intros u timeout x [Hr | [Hr | (e & _ & Hr)]]%check_endpoint_result_text;
      [auto..|].
    do 3 right. by exists (exc_class_name e). }
  intros [u timeout x Hr | cfg w rs Hrs Hin]; [by eapply Hone|].
  destruct (check_endpoints_elem _ _ _ _ Hrs Hin)
    as [(_ & _ & ->) | (lines & i & u & _ & _ & Hr)]; [auto|by eapply Hone].
Qed.

Lemma result_vocabulary_witness :
  result Sample.late_result = "UP" ∨ result Sample.late_result = "TIMEOUT"
  ∨ result Sample.late_result = "ERROR: URL file not found"
  ∨ ∃ class_name : string, result Sample.late_result = "DOWN (" +:+ class_name +:+ ")".
Proof.
  apply (result_vocabulary Sample.late_result).
  apply (by_check_endpoint _ "http://ok.example/" 2 Sample.late). reflexivity.
Defined.

Lemma requested_reschedule cfg w pick' :
  requested (check_endpoints cfg (reschedule w pick'))
  = requested (check_endpoints cfg w).
Proof.
  unfold check_endpoints, reschedule; simpl.
  destruct (path_exists _ _); simpl; [|done].
  destruct (open_lines _ _); [|done].
  by destruct (ThreadPoolExecutor _).
Qed.

(** X14. The order in which the futures are handed back decides the order
    of the results and nothing else: under any other order the same
    requests are made, the handler returns or raises as before, and a
    returned list is a rearrangement of the one returned before. *)
Theorem completion_order_only_permutes (cfg : settings) (w : world)
    (pick' : nat → nat) :
  requested (check_endpoints cfg (reschedule w pick'))
    = requested (check_endpoints cfg w)
  ∧ returns (response (check_endpoints cfg (reschedule w pick')))
    = returns (response (check_endpoints cfg w))
  ∧ ∀ rs rs',
      response (check_endpoints cfg w) = Return rs →
      response (check_endpoints cfg (reschedule w pick')) = Return rs' →
      rs ≡ₚ rs'.
Proof.
  split; [apply requested_reschedule|]. split.
  - destruct (fs w !! URL_FILE cfg) as [[lines| |class_name]|] eqn:Hf.
    + destruct (Z.leb_spec (MAX_WORKERS cfg) 0) as [Hw|Hw].
      * unfold check_endpoints, open_lines, ThreadPoolExecutor, reschedule; simpl.
        rewrite (path_exists_Some _ _ _ Hf), Hf; simpl.
        by destruct (Z.leb_spec (MAX_WORKERS cfg) 0); [|lia].
      * rewrite (check_endpoints_available cfg w lines Hf) by lia.
        rewrite (check_endpoints_available cfg (reschedule w pick') lines Hf) by lia.
        simpl. apply returns_collect_Permutation.
        change (submit_all cfg (reschedule w pick')) with (submit_all cfg w).
        by rewrite !as_completed_Permutation.
    + unfold check_endpoints, open_lines, reschedule; simpl.
      by rewrite (path_exists_Some _ _ _ Hf), Hf.
    + unfold check_endpoints, open_lines, reschedule; simpl.
      by rewrite (path_exists_Some _ _ _ Hf), Hf.
    + rewrite (check_endpoints_missing cfg w Hf).
      by rewrite (check_endpoints_missing cfg (reschedule w pick') Hf).
  - intros rs rs' [[Hf ->] | (lines & Hf & _ & Hperm)]%check_endpoints_inv
                  [[Hf' ->] | (lines' & Hf' & _ & Hperm')]%check_endpoints_inv;
      simpl in *; try congruence; [done|].
    assert (lines' = lines) as -> by congruence.
    apply Return_Permutation_inv.
    change (submit_all cfg (reschedule w pick')) with (submit_all cfg w) in Hperm'.
    by rewrite Hperm, Hperm'.
Qed.

(** ** CORS origins and settings, continued *)

Lemma split_nonempty sep s : split sep s ≠ [].
Proof.
  destruct s as [|c s]; simpl; [done|].
  destruct (Ascii.eqb c sep); [done|]. by destruct (split sep s).
Qed.

Lemma join_cons sep piece pieces :
  pieces ≠ [] → join sep (piece :: pieces) = piece +:+ String sep (join sep pieces).
Proof. by destruct pieces. Qed.

Lemma join_split sep s : join sep (split sep s) = s.
Proof.
  induction s as [|c s IH]; simpl; [done|].
  destruct (Ascii.eqb_spec c sep) as [->|Hc].
  - rewrite join_cons by apply split_nonempty. by rewrite IH.
  - pose proof (split_nonempty sep s) as Hne.
    destruct (split sep s) as [|piece pieces]; [done|].
    destruct pieces as [|piece' pieces].
    + simpl in *. by rewrite IH.
    + rewrite join_cons by done. rewrite join_cons in IH by done.
      by rewrite append_cons, IH.
Qed.

Lemma length_split sep s : length (split sep s) = S (count_char sep s).
Proof.
  induction s as [|c s IH]; simpl; [done|].
  destruct (Ascii.eqb c sep); simpl; [by rewrite IH|].
  pose proof (split_nonempty sep s) as Hne.
  by destruct (split sep s).
Qed.

Lemma split_pieces sep s : Forall (λ piece, count_char sep piece = 0%nat) (split sep s).
Proof.
  induction s as [|c s IH]; simpl; [by constructor|].
  destruct (Ascii.eqb c sep) eqn:Hc; [by constructor|].
  destruct (split sep s) as [|piece pieces]; [constructor; [simpl; by rewrite Hc|done]|].
  inversion IH as [|? ? Hp Hps]; subst.
  constructor; [|done]. simpl. by rewrite Hc, Hp.
Qed.

Lemma split_app sep a rest :
  count_char sep a = 0%nat →
  split sep (a +:+ String sep rest) = a :: split sep rest.
Proof.
  induction a as [|c a IH]; simpl.
  - intros _. change ("" +:+ String sep rest) with (String sep rest). simpl.
    by rewrite Ascii.eqb_refl.
  - rewrite ?append_cons. simpl.
    destruct (Ascii.eqb c sep); [done|]. simpl. intros Ha. by rewrite (IH Ha).
Qed.

(** X17. Cutting the CORS setting at its commas loses nothing and invents
    nothing: joined again with commas the origins give back the text, there
    is one origin more than there are commas (so never an empty list), and
    no origin contains a comma. *)
Theorem origins_round_trip (environ : gmap string string) :
  join comma (origins environ)
    = Settings.getenv_str environ "CORS_ORIGINS" "*"
  ∧ length (origins environ)
    = S (count_char comma (Settings.getenv_str environ "CORS_ORIGINS" "*"))
  ∧ Forall (λ origin, count_char comma origin = 0%nat) (origins environ).
Proof.
  unfold origins. split_and!.
  - apply join_split.
  - apply length_split.
  - apply split_pieces.
Qed.

(** X18. Left unset, the CORS setting stands for the single origin "*".
    Set, it is taken as written: what precedes the first comma is the
    first origin and the rest is cut in the same way, so an empty text
    gives one empty origin and white space around an origin stays in it. *)
Theorem origins_taken_as_written (environ : gmap string string) :
  (environ !! "CORS_ORIGINS" = None → origins environ = ["*"])
  ∧ (environ !! "CORS_ORIGINS" = Some "" → origins environ = [""])
  ∧ (∀ first rest : string,
       environ !! "CORS_ORIGINS" = Some (first +:+ String comma rest) →
       count_char comma first = 0%nat →
       origins environ = first :: split comma rest).
Proof.
  unfold origins, Settings.getenv_str. split_and!.
  - by intros ->.
  - by intros ->.
  - intros first rest -> Hfirst. by apply split_app.
Qed.

Lemma origins_taken_as_written_witness :
  origins ∅ = ["*"]
  ∧ origins {[ "CORS_ORIGINS" := "http://a.example, http://b.example" ]}
    = ["http://a.example"; " http://b.example"].
Proof.
  split.
  - apply (origins_taken_as_written ∅). reflexivity.
  - apply (origins_taken_as_written
             {[ "CORS_ORIGINS" := "http://a.example, http://b.example" ]})
      with (first := "http://a.example") (rest := " http://b.example");
      reflexivity.
Defined.

(** X19. A failed load is always a [ValueError], and always the fault of
    TIMEOUT or MAX_WORKERS being set to a text that [int] rejects: an unset
    variable, URL_FILE and every other variable never make the load fail. *)
Theorem load_failure_traced (environ : gmap string string) (e : py_exception) :
  Settings.load environ = Raise e →
  e = ValueError
  ∧ ∃ key s, (key = "TIMEOUT" ∨ key = "MAX_WORKERS")
             ∧ environ !! key = Some s
             ∧ Settings.int_of_str s = Raise ValueError.
Proof.
  unfold Settings.load, Settings.getenv.
  destruct (environ !! "TIMEOUT") as [t|] eqn:Ht; simpl.
  - destruct (int_of_str_cases t) as [Et|(zt & Et & _)]; rewrite Et; simpl.
    { intros [= <-]. split; [done|]. exists "TIMEOUT", t. auto. }
    destruct (environ !! "MAX_WORKERS") as [m|] eqn:Hm; simpl; [|done].
    destruct (int_of_str_cases m) as [Em|(zm & Em & _)]; rewrite Em; simpl; [|done].
    intros [= <-]. split; [done|]. exists "MAX_WORKERS", m. auto.
  - destruct (environ !! "MAX_WORKERS") as [m|] eqn:Hm; simpl; [|done].
    destruct (int_of_str_cases m) as [Em|(zm & Em & _)]; rewrite Em; simpl; [|done].
    intros [= <-]. split; [done|]. exists "MAX_WORKERS", m. auto.
Qed.

Lemma load_failure_traced_witness :
  ValueError = ValueError
  ∧ ∃ key s, (key = "TIMEOUT" ∨ key = "MAX_WORKERS")
             ∧ ({[ "TIMEOUT" := "5"; "MAX_WORKERS" := "ten"; "URL_FILE" := "" ]}
                : gmap string string) !! key = Some s
             ∧ Settings.int_of_str s = Raise ValueError.
Proof.
  exact (load_failure_traced
           {[ "TIMEOUT" := "5"; "MAX_WORKERS" := "ten"; "URL_FILE" := "" ]}
           ValueError eq_refl).
Defined.
